(** * clear.js: the bounded task runner (class ThreadPool) and the tag glue

    A shallow embedding of [src/clear.js].

    The runner is event driven: [runAll] and [_startThreads] run
    synchronously, and every job [task()] gets the promise chain
    [task().then(..).catch(..).finally(..)], whose three callbacks run later,
    one micro-task each, in an order that depends on when the job settles.
    The embedding keeps the fields of the JavaScript object as they are,
    adds the pending promise chains and the observable effects (calls of the
    jobs, lines of [console.error], calls of the [resolve] functions), and
    lets a schedule, a list of chain indices, choose which pending callback
    runs next. *)

From Stdlib Require Import ZArith String Ascii Lia.
From stdpp Require Import base list.

Local Open Scope nat_scope.

(** ** Data *)

(** The JavaScript values that jobs produce and throw. *)
Inductive JsValue : Type :=
| JsUndefined
| JsNumber (z : Z)
| JsString (s : string).

(** How the promise returned by [task()] ends: fulfilled with a value,
    rejected with a reason, or never settled. *)
Inductive Outcome : Type :=
| Fulfilled (v : JsValue)
| Rejected (reason : JsValue)
| Pending.

(** A job: the function object (its identity) and what its promise does.
    Jobs are [async] functions: calling one returns a promise and does not
    throw, and a function is never falsy. *)
Record Task : Type := mkTask {
  task_id : nat;
  task_outcome : Outcome
}.

(** Which callback of [task().then(f).catch(g).finally(h)] runs next. *)
Inductive Phase : Type :=
| AwaitThen
| AwaitCatch
| AwaitFinally.

(** The [ThreadPool] object ([maxThreads], [running], [queue], [results],
    [_onComplete]) together with its environment: the pending promise
    chains, the number of promises [runAll] has created, and the effects
    seen from outside. [_onComplete] holds the [resolve] function of the
    promise with that number; [resolved] lists the calls of such functions
    with the content of the array passed at that moment (the array is
    [this.results] itself, not a copy). *)
Record State : Type := mkState {
  maxThreads : Z;
  running : Z;
  queue : list Task;
  results : list JsValue;
  _onComplete : option nat;
  chains : list (Task * Phase);
  promises : nat;
  calls : list Task;
  console : list JsValue;
  resolved : list (nat * list JsValue);
  uncaught : nat
}.

(** ** class ThreadPool *)

(** [constructor(maxThreads)], in an environment where nothing happened. *)
Definition new_ThreadPool (K : Z) : State :=
  {| maxThreads := K; running := 0%Z; queue := []; results := [];
     _onComplete := None; chains := []; promises := 0; calls := [];
     console := []; resolved := []; uncaught := 0 |}.

(** [_startThread()]: [queue.shift()]; on [undefined] return; otherwise
    [running++], call the job and hang the three callbacks on its promise. *)
Definition _startThread (s : State) : State :=
  match queue s with
  | [] => s
  | task :: rest =>
      {| maxThreads := maxThreads s;
         running := (running s + 1)%Z;
         queue := rest;
         results := results s;
         _onComplete := _onComplete s;
         chains := chains s ++ [(task, AwaitThen)];
         promises := promises s;
         calls := calls s ++ [task];
         console := console s;
         resolved := resolved s;
         uncaught := uncaught s |}
  end.

(** The loop of [_startThreads()]:
    [while (running < maxThreads && queue.length > 0) _startThread()]. *)
Fixpoint startThreads_loop (fuel : nat) (s : State) : State :=
  match fuel with
  | O => s
  | S fuel' =>
      if ((running s <? maxThreads s)%Z && (0 <? length (queue s)))%bool
      then startThreads_loop fuel' (_startThread s)
      else s
  end.

(** Every iteration shifts one job, so the length of the queue is fuel
    enough (lemma [startThreads_exit]). *)
Definition _startThreads (s : State) : State :=
  startThreads_loop (length (queue s)) s.

(** [tasks.forEach(task => this.queue.push(task))]. *)
Definition push_all (tasks : list Task) (s : State) : State :=
  {| maxThreads := maxThreads s; running := running s;
     queue := queue s ++ tasks;
     results := results s; _onComplete := _onComplete s;
     chains := chains s; promises := promises s; calls := calls s;
     console := console s; resolved := resolved s; uncaught := uncaught s |}.

(** [runAll(tasks)]: the executor of the new promise runs at once: it
    queues the jobs, starts threads, and only then stores [resolve]. *)
Definition runAll (tasks : list Task) (s : State) : State :=
  let s' := _startThreads (push_all tasks s) in
  {| maxThreads := maxThreads s'; running := running s'; queue := queue s';
     results := results s';
     _onComplete := Some (promises s);
     chains := chains s';
     promises := S (promises s);
     calls := calls s'; console := console s'; resolved := resolved s';
     uncaught := uncaught s' |}.

Definition set_chains (c : list (Task * Phase)) (s : State) : State :=
  {| maxThreads := maxThreads s; running := running s; queue := queue s;
     results := results s; _onComplete := _onComplete s;
     chains := c; promises := promises s; calls := calls s;
     console := console s; resolved := resolved s; uncaught := uncaught s |}.

(** [result => { this.results.push(result) }]. *)
Definition thenCallback (result : JsValue) (s : State) : State :=
  {| maxThreads := maxThreads s; running := running s; queue := queue s;
     results := results s ++ [result];
     _onComplete := _onComplete s;
     chains := chains s; promises := promises s; calls := calls s;
     console := console s; resolved := resolved s; uncaught := uncaught s |}.

(** [error => { console.error(.., error) }]. *)
Definition catchCallback (error : JsValue) (s : State) : State :=
  {| maxThreads := maxThreads s; running := running s; queue := queue s;
     results := results s; _onComplete := _onComplete s;
     chains := chains s; promises := promises s; calls := calls s;
     console := console s ++ [error];
     resolved := resolved s; uncaught := uncaught s |}.

Definition decr_running (s : State) : State :=
  {| maxThreads := maxThreads s; running := (running s - 1)%Z;
     queue := queue s; results := results s; _onComplete := _onComplete s;
     chains := chains s; promises := promises s; calls := calls s;
     console := console s; resolved := resolved s; uncaught := uncaught s |}.

(** [this._onComplete(this.results)]; calling [undefined] throws. *)
Definition notify (s : State) : State :=
  match _onComplete s with
  | Some p =>
      {| maxThreads := maxThreads s; running := running s; queue := queue s;
         results := results s; _onComplete := _onComplete s;
         chains := chains s; promises := promises s; calls := calls s;
         console := console s;
         resolved := resolved s ++ [(p, results s)];
         uncaught := uncaught s |}
  | None =>
      {| maxThreads := maxThreads s; running := running s; queue := queue s;
         results := results s; _onComplete := _onComplete s;
         chains := chains s; promises := promises s; calls := calls s;
         console := console s; resolved := resolved s;
         uncaught := S (uncaught s) |}
  end.

(** The [finally] callback: [running--]; start one more job if the queue is
    not empty; if nothing runs and nothing waits, notify. *)
Definition finallyCallback (s : State) : State :=
  let s1 := decr_running s in
  let s2 := if 0 <? length (queue s1) then _startThread s1 else s1 in
  if ((running s2 =? 0)%Z && (length (queue s2) =? 0))%bool
  then notify s2
  else s2.

(** One micro-task: the next callback of the [i]-th pending chain. A chain
    whose job never settles has no callback to run. *)
Definition tick (i : nat) (s : State) : option State :=
  match chains s !! i with
  | None => None
  | Some (task, AwaitThen) =>
      match task_outcome task with
      | Fulfilled v =>
          Some (thenCallback v
                  (set_chains (<[i := (task, AwaitCatch)]> (chains s)) s))
      | Rejected _ =>
          Some (set_chains (<[i := (task, AwaitCatch)]> (chains s)) s)
      | Pending => None
      end
  | Some (task, AwaitCatch) =>
      match task_outcome task with
      | Rejected e =>
          Some (catchCallback e
                  (set_chains (<[i := (task, AwaitFinally)]> (chains s)) s))
      | _ =>
          Some (set_chains (<[i := (task, AwaitFinally)]> (chains s)) s)
      end
  | Some (task, AwaitFinally) =>
      Some (finallyCallback (set_chains (delete i (chains s)) s))
  end.

(** A schedule runs callbacks one after the other. *)
Fixpoint exec (sched : list nat) (s : State) : option State :=
  match sched with
  | [] => Some s
  | i :: sched' =>
      match tick i s with
      | Some s' => exec sched' s'
      | None => None
      end
  end.

(** What a list of jobs hands to [then] and to [catch]. *)
Definition fulfilled_value (t : Task) : list JsValue :=
  match task_outcome t with Fulfilled v => [v] | _ => [] end.

Definition rejected_reason (t : Task) : list JsValue :=
  match task_outcome t with Rejected e => [e] | _ => [] end.

Definition settles (t : Task) : Prop := task_outcome t <> Pending.

Definition phase_weight (ph : Phase) : nat :=
  match ph with AwaitThen => 3 | AwaitCatch => 2 | AwaitFinally => 1 end.

(** Callbacks still to run: three per queued job, and the rest of each
    pending chain. *)
Definition work (s : State) : nat :=
  3 * length (queue s) + sum_list_with (fun c => phase_weight (snd c)) (chains s).

(** ** Invariant of a run *)

(** The jobs of the pending chains whose [then] (resp. [catch]) callback
    has not run yet. *)
Definition awaiting_then (c : list (Task * Phase)) : list Task :=
  flat_map (fun c => match snd c with AwaitThen => [fst c] | _ => [] end) c.

Definition awaiting_catch (c : list (Task * Phase)) : list Task :=
  flat_map (fun c => match snd c with AwaitFinally => [] | _ => [fst c] end) c.

(** A pool on which no job waits or runs: a new one, or one whose run is
    over. *)
Definition idle (s : State) : Prop :=
  running s = 0%Z /\ queue s = [] /\ chains s = [].

(** What holds of the jobs, the counters and the logs after [runAll tasks]
    on the pool [base], between any two callbacks, when [n] jobs have been
    started. *)
Record Core (base : State) (tasks : list Task) (s : State) (n : nat) : Prop := {
  core_max : maxThreads s = maxThreads base;
  core_n : n <= length tasks;
  core_queue : queue s = drop n tasks;
  core_calls : calls s = calls base ++ take n tasks;
  core_running : running s = Z.of_nat (length (chains s));
  core_chains : Forall (fun c => fst c ∈ tasks) (chains s);
  core_started : length (chains s) <= n;
  core_results : exists new,
      results s = results base ++ new /\
      new ++ flat_map fulfilled_value (awaiting_then (chains s) ++ queue s)
        ≡ₚ flat_map fulfilled_value tasks;
  core_console : exists new,
      console s = console base ++ new /\
      new ++ flat_map rejected_reason (awaiting_catch (chains s) ++ queue s)
        ≡ₚ flat_map rejected_reason tasks;
  core_bound : (running s <= Z.max 0 (maxThreads base))%Z;
  core_uncaught : uncaught s = uncaught base
}.

(** The invariant of a run: the above, the pool is saturated while jobs
    wait, and [resolve] has been called exactly when a started run has no
    pending chain left. *)
Record Inv (base : State) (tasks : list Task) (s : State) (n : nat) : Prop := {
  inv_core : Core base tasks s n;
  inv_saturated : queue s <> [] -> (maxThreads base <= running s)%Z;
  inv_resolved :
      resolved s =
      resolved base ++
      (if bool_decide (chains s = [] /\ 0 < n)
       then [(promises base, results s)] else []);
  inv_onComplete : _onComplete s = Some (promises base);
  inv_promises : promises s = S (promises base)
}.

(** Whether the callback that chain [i] runs next is its [finally]. *)
Definition finalizes (i : nat) (s : State) : bool :=
  match chains s !! i with
  | Some (_, AwaitFinally) => true
  | _ => false
  end.

(** Two readings of the specification that the runner does not meet, kept
    to be refuted. The first: every resolution hands over one entry per
    submitted job. The second, the weakest sense in which failures could be
    recorded in the collection: it has an entry for each rejected job next
    to the entries of the fulfilled ones. *)
Definition one_entry_per_job (tasks : list Task) (K : Z) : Prop :=
  forall sched s p vs,
    exec sched (runAll tasks (new_ThreadPool K)) = Some s ->
    (p, vs) ∈ resolved s ->
    length vs = length tasks.

Definition failures_in_results (tasks : list Task) (K : Z) : Prop :=
  forall sched s p vs,
    exec sched (runAll tasks (new_ThreadPool K)) = Some s ->
    (p, vs) ∈ resolved s ->
    length (flat_map fulfilled_value tasks)
      + length (flat_map rejected_reason tasks) <= length vs.

(** ** The glue of [main]: classification of the tags *)

(** Strings are sequences of code units; every character the script looks
    at is ASCII. [tag.startsWith(p)]: *)
Definition startsWith (tag p : string) : bool := String.prefix p tag.

(** [s.substring(n)]: the string without its first [n] code units. *)
Fixpoint substring_from (n : nat) (s : string) : string :=
  match n, s with
  | O, _ => s
  | S _, EmptyString => EmptyString
  | S n', String _ rest => substring_from n' rest
  end.

(** The class [0-9.] of the regular expression. *)
Definition digit_or_dot (c : ascii) : bool :=
  let n := nat_of_ascii c in
  ((48 <=? n) && (n <=? 57)) || (n =? 46).

(** [/[^0-9.]/.test(s)]: some code unit of [s] is outside the class. *)
Fixpoint test_not_digit_dot (s : string) : bool :=
  match s with
  | EmptyString => false
  | String c rest => negb (digit_or_dot c) || test_not_digit_dot rest
  end.

Record TagLists : Type := mkTagLists {
  tagsToDelete : list string;
  tagsToKeep : list string
}.

(** The body of [allTags.forEach(tag => ...)]. *)
Definition classify_tag (lists : TagLists) (tag : string) : TagLists :=
  let startsWith3x :=
    startsWith tag "v35"%string || startsWith tag "v36"%string ||
    startsWith tag "v37"%string || startsWith tag "v38"%string in
  if startsWith3x then
    let hasSuffix := test_not_digit_dot (substring_from 3 tag) in
    if hasSuffix
    then {| tagsToDelete := tagsToDelete lists ++ [tag];
            tagsToKeep := tagsToKeep lists |}
    else {| tagsToDelete := tagsToDelete lists;
            tagsToKeep := tagsToKeep lists ++ [tag] |}
  else
    if startsWith tag "v"%string
    then {| tagsToDelete := tagsToDelete lists ++ [tag];
            tagsToKeep := tagsToKeep lists |}
    else {| tagsToDelete := tagsToDelete lists;
            tagsToKeep := tagsToKeep lists ++ [tag] |}.

(** When the body of the loop pushes to [tagsToDelete]. *)
Definition to_delete (tag : string) : bool :=
  if (startsWith tag "v35" || startsWith tag "v36" ||
      startsWith tag "v37" || startsWith tag "v38")%bool
  then test_not_digit_dot (substring_from 3 tag)
  else startsWith tag "v".

Definition classify (allTags : list string) : TagLists :=
  fold_left classify_tag allTags {| tagsToDelete := []; tagsToKeep := [] |}.

(** The rule in the words of the specification: a tag is deleted when it
    starts with [v] and either has none of the four prefixes or has, from
    index 3 on, a character that is neither an ASCII digit nor a dot. *)
Definition ascii_digit (c : ascii) : Prop :=
  exists d, d < 10 /\ c = ascii_of_nat (48 + d).

Definition deleted_by_rule (tag : string) : Prop :=
  String.get 0 tag = Some "v"%char /\
  ((String.prefix "v35"%string tag = false /\ String.prefix "v36"%string tag = false /\
    String.prefix "v37"%string tag = false /\ String.prefix "v38"%string tag = false) \/
   exists i c, String.get (3 + i) tag = Some c /\
               ~ ascii_digit c /\ c <> "."%char).

(** ** The glue of [main]: the deletion jobs *)

(** What [child_process.exec] reports for a command: the output, or an
    error with the text of the error stream ([undefined] is [None]). *)
Record GitFailure : Type := mkGitFailure { stderr : option string }.

Inductive ExecResult : Type :=
| ExecOk (stdout : string)
| ExecError (failure : GitFailure).

(** [hay.includes(needle)]. *)
Fixpoint includes (hay needle : string) : bool :=
  String.prefix needle hay ||
  match hay with
  | EmptyString => false
  | String _ rest => includes rest needle
  end.

(** [isTagNotFoundError(error)], with [error.stderr || '']. *)
Definition isTagNotFoundError (error : GitFailure) : bool :=
  let errorMessage :=
    match stderr error with
    | Some m => m
    | None => EmptyString
    end in
  includes errorMessage "remote ref does not exist"%string ||
  includes errorMessage "remote ref is at"%string ||
  includes errorMessage "tag does not exist"%string.

(** [runGitCommandAsync(command)] settles with what [exec] reports: it
    fulfils with the output or rejects with [{error, stderr}]. The jobs
    below use only which of the two happens, and [stderr]. *)
Definition runGitCommandAsync (exec_ : string -> ExecResult) (command : string)
  : ExecResult := exec_ command.

Record Tallies : Type := mkTallies {
  successTags : list string;
  failedTags : list (string * GitFailure);
  deletedLocalTags : list string
}.

(** The job made for one tag. It pushes to at most one of the three arrays,
    once, after its last [await], and catches every rejection. What it
    prints is left out. *)
Definition deleteTask (exec_ : string -> ExecResult) (tag : string)
    (t : Tallies) : Tallies :=
  match runGitCommandAsync exec_ ("git push origin --delete " ++ tag)%string with
  | ExecOk _ =>
      {| successTags := successTags t ++ [tag];
         failedTags := failedTags t;
         deletedLocalTags := deletedLocalTags t |}
  | ExecError error =>
      if isTagNotFoundError error then
        match runGitCommandAsync exec_ ("git tag -d " ++ tag)%string with
        | ExecOk _ =>
            {| successTags := successTags t;
               failedTags := failedTags t;
               deletedLocalTags := deletedLocalTags t ++ [tag] |}
        | ExecError _ => t
        end
      else
        {| successTags := successTags t;
           failedTags := failedTags t ++ [(tag, error)];
           deletedLocalTags := deletedLocalTags t |}
  end.

(** The three arrays after the jobs have finished, in the order in which
    they finished; each job comes with the behaviour of [exec] it met. *)
Definition runDeleteTasks (finished : list (string * (string -> ExecResult)))
  : Tallies :=
  fold_left (fun t job => deleteTask (snd job) (fst job) t) finished
    {| successTags := []; failedTags := []; deletedLocalTags := [] |}.

(** Whether the remote deletion of a job fails with a tag-not-found error. *)
Definition remote_not_found (job : string * (string -> ExecResult)) : bool :=
  match snd job ("git push origin --delete " ++ fst job)%string with
  | ExecOk _ => false
  | ExecError error => isTagNotFoundError error
  end.

(** ** The rest of [main]: reading the tags and deciding what to do *)

(** From here on a string of the model is a JavaScript string whose code
    units are all below 256, one [ascii] per code unit. *)


(** The code units below 256 that [trim] strips: white space (tab, vertical
    tab, form feed, space, no-break space) and line terminators. *)
Definition white_space (c : ascii) : bool :=
  let n := nat_of_ascii c in
  ((9 <=? n) && (n <=? 13)) || (n =? 32) || (n =? 160).

Fixpoint trimStart (s : string) : string :=
  match s with
  | EmptyString => EmptyString
  | String c rest => if white_space c then trimStart rest else s
  end.

Fixpoint trimEnd (s : string) : string :=
  match s with
  | EmptyString => EmptyString
  | String c rest =>
      match trimEnd rest with
      | EmptyString => if white_space c then EmptyString else String c EmptyString
      | kept => String c kept
      end
  end.

(** [s.trim()]. *)
Definition trim (s : string) : string := trimEnd (trimStart s).

Definition newline : ascii := ascii_of_nat 10.

(** [s.split('\n')]: the pieces between the line feeds; one piece, the
    empty string, for the empty string. *)
Fixpoint split_newline (s : string) : list string :=
  match s with
  | EmptyString => [EmptyString]
  | String c rest =>
      if Ascii.eqb c newline then EmptyString :: split_newline rest
      else
        match split_newline rest with
        | piece :: pieces => String c piece :: pieces
        | [] => [String c EmptyString]
        end
  end.

(** [tag => tag.trim() !== '']. *)
Definition not_blank (tag : string) : bool :=
  negb (String.eqb (trim tag) EmptyString).

(** [tagsOutput.split('\n').filter(tag => tag.trim() !== '')]. *)
Definition allTags_of (tagsOutput : string) : list string :=
  List.filter not_blank (split_newline tagsOutput).

(** [runGitCommand(command)]: the trimmed output of [execSync], or
    [process.exit(1)], which is [None]. *)
Definition runGitCommand (execSync_ : string -> ExecResult) (command : string)
  : option string :=
  match execSync_ command with
  | ExecOk stdout => Some (trim stdout)
  | ExecError _ => None
  end.

(** [syncRemoteTags()]: whether the script goes on; on a failed fetch it
    calls [process.exit(1)]. *)
Definition syncRemoteTags (exec_ : string -> ExecResult) : bool :=
  match runGitCommandAsync exec_ "git fetch --prune --tags"%string with
  | ExecOk _ => true
  | ExecError _ => false
  end.

(** [toLowerCase] on one code unit below 256: the letters A-Z, and the
    Latin-1 capitals 192-222 but for the multiplication sign 215. *)
Definition lower_unit (c : ascii) : ascii :=
  let n := nat_of_ascii c in
  if ((65 <=? n) && (n <=? 90)) ||
     ((192 <=? n) && (n <=? 222) && negb (n =? 215))
  then ascii_of_nat (n + 32)
  else c.

Fixpoint toLowerCase (s : string) : string :=
  match s with
  | EmptyString => EmptyString
  | String c rest => String (lower_unit c) (toLowerCase rest)
  end.

(** How [main] ends, or goes on to run the pool. *)
Inductive MainOutcome : Type :=
| Exit1
| NoTags
| NothingToDelete (lists : TagLists)
| Cancelled (lists : TagLists)
| DeleteTags (lists : TagLists).

(** [main()] up to the creation of the pool: [exec_] and [execSync_] stand
    for what git does, [answer] for what the user types when asked. *)
Definition main (exec_ execSync_ : string -> ExecResult) (answer : string)
  : MainOutcome :=
  if negb (syncRemoteTags exec_) then Exit1
  else
    match runGitCommand execSync_ "git tag"%string with
    | None => Exit1
    | Some tagsOutput =>
        let allTags := allTags_of tagsOutput in
        if length allTags =? 0 then NoTags
        else
          let lists := classify allTags in
          if length (tagsToDelete lists) =? 0 then NothingToDelete lists
          else if negb (String.eqb (toLowerCase answer) "y"%string)
               then Cancelled lists
               else DeleteTags lists
    end.


(** What a finished deletion job met: its push succeeded; it failed for
    another reason than a missing tag; the tag was missing and the local
    tag could be deleted. *)
Definition push_ok (job : string * (string -> ExecResult)) : bool :=
  match snd job ("git push origin --delete " ++ fst job)%string with
  | ExecOk _ => true
  | ExecError _ => false
  end.

Definition push_failure (job : string * (string -> ExecResult))
  : option (string * GitFailure) :=
  match snd job ("git push origin --delete " ++ fst job)%string with
  | ExecOk _ => None
  | ExecError error =>
      if isTagNotFoundError error then None else Some (fst job, error)
  end.

Definition local_deleted (job : string * (string -> ExecResult)) : bool :=
  remote_not_found job &&
  match snd job ("git tag -d " ++ fst job)%string with
  | ExecOk _ => true
  | ExecError _ => false
  end.

(** [needle] occurs in [hay]. *)
Definition occurs_in (needle hay : string) : Prop :=
  exists before after, hay = (before ++ needle ++ after)%string.

(** A name without white space, as git prints them, and the output made of
    such names, one per line. *)
Definition clean_tag (tag : string) : Prop :=
  tag <> EmptyString /\
  Forall (fun c => white_space c = false) (list_ascii_of_string tag).

Definition one_per_line (tags : list string) : string :=
  (String.concat (String newline EmptyString) tags ++ String newline EmptyString)%string.

(** ** One thread *)

(** With one thread the values pushed so far, followed by the value of the
    job whose [then] is awaited, are the values of the jobs started. *)
Definition in_order (base : State) (tasks : list Task) (s : State) (n : nat) : Prop :=
  Inv base tasks s n /\
  exists new,
    results s = results base ++ new /\
    new ++ flat_map fulfilled_value (awaiting_then (chains s))
      = flat_map fulfilled_value (take n tasks).

(** * Proofs *)

(** ** The runner *)

(** *** Starting threads *)

Lemma startThread_cons s t rest :
  queue s = t :: rest ->
  _startThread s =
  {| maxThreads := maxThreads s; running := (running s + 1)%Z; queue := rest;
     results := results s; _onComplete := _onComplete s;
     chains := chains s ++ [(t, AwaitThen)]; promises := promises s;
     calls := calls s ++ [t]; console := console s; resolved := resolved s;
     uncaught := uncaught s |}.
Proof. intros H. unfold _startThread. rewrite H. reflexivity. Qed.

Lemma startThreads_loop_exit fuel s :
  length (queue s) <= fuel ->
  ((running (startThreads_loop fuel s) <? maxThreads (startThreads_loop fuel s))%Z
   && (0 <? length (queue (startThreads_loop fuel s))))%bool = false.
Proof.
  revert s. induction fuel as [|fuel IH]; intros s Hlen; simpl.
  - destruct (queue s) eqn:Hq; simpl in *; [|lia]. apply andb_false_r.
  - destruct ((running s <? maxThreads s)%Z && (0 <? length (queue s)))%bool eqn:Hc;
      [|exact Hc].
    apply IH. destruct (queue s) as [|t rest] eqn:Hq.
    + rewrite andb_false_r in Hc. discriminate.
    + rewrite (startThread_cons s t rest Hq). simpl in *. lia.
Qed.

Lemma startThreads_exit s :
  (running (_startThreads s) <? maxThreads (_startThreads s))%Z = false \/
  queue (_startThreads s) = [].
Proof.
  pose proof (startThreads_loop_exit (length (queue s)) s (le_n _)) as H.
  fold (_startThreads s) in H.
  apply andb_false_iff in H as [H|H]; [by left|right].
  destruct (queue (_startThreads s)); [done|discriminate].
Qed.

Lemma queue_head (tasks : list Task) n t rest :
  drop n tasks = t :: rest ->
  n < length tasks /\ drop (S n) tasks = rest /\ take (S n) tasks = take n tasks ++ [t]
  /\ t ∈ tasks.
Proof.
  intros H.
  assert (Ht : tasks !! n = Some t).
  { rewrite <- (Nat.add_0_r n), <- lookup_drop, H. reflexivity. }
  split; [by eapply lookup_lt_Some|].
  split; [|split].
  - rewrite (drop_S _ _ _ Ht) in H. congruence.
  - by apply take_S_r.
  - by eapply list_elem_of_lookup_2.
Qed.

Lemma awaiting_then_app c1 c2 :
  awaiting_then (c1 ++ c2) = awaiting_then c1 ++ awaiting_then c2.
Proof. apply flat_map_app. Qed.

Lemma awaiting_catch_app c1 c2 :
  awaiting_catch (c1 ++ c2) = awaiting_catch c1 ++ awaiting_catch c2.
Proof. apply flat_map_app. Qed.

(** Normal form of the lists of pending jobs. *)
Ltac chain_lists :=
  repeat (rewrite ?awaiting_then_app, ?awaiting_catch_app, ?length_app; simpl).

(** *** One callback *)

Lemma tick_cases i s s' :
  tick i s = Some s' ->
  exists t ph l1 l2,
    chains s = l1 ++ (t, ph) :: l2 /\ length l1 = i /\
    match ph with
    | AwaitThen =>
        (exists v, task_outcome t = Fulfilled v /\
           s' = thenCallback v (set_chains (l1 ++ (t, AwaitCatch) :: l2) s)) \/
        (exists e, task_outcome t = Rejected e /\
           s' = set_chains (l1 ++ (t, AwaitCatch) :: l2) s)
    | AwaitCatch =>
        (exists e, task_outcome t = Rejected e /\
           s' = catchCallback e (set_chains (l1 ++ (t, AwaitFinally) :: l2) s)) \/
        (rejected_reason t = [] /\
           s' = set_chains (l1 ++ (t, AwaitFinally) :: l2) s)
    | AwaitFinally => s' = finallyCallback (set_chains (l1 ++ l2) s)
    end.
Proof.
  unfold tick. intros H.
  destruct (chains s !! i) as [[t ph]|] eqn:Hi; [|discriminate].
  pose proof (lookup_lt_Some _ _ _ Hi) as Hlt.
  exists t, ph, (take i (chains s)), (drop (S i) (chains s)).
  split; [by rewrite take_drop_middle|].
  split; [rewrite length_take; lia|].
  rewrite <- !insert_take_drop, <- delete_take_drop by done.
  unfold rejected_reason.
  destruct ph, (task_outcome t); simplify_eq; eauto.
Qed.

Lemma flat_map_take_out {A B} (f : A -> list B) new a1 t a2 q :
  new ++ flat_map f ((a1 ++ t :: a2) ++ q) ≡ₚ
  (new ++ f t) ++ flat_map f ((a1 ++ a2) ++ q).
Proof.
  rewrite !flat_map_app. simpl. rewrite <- !app_assoc.
  apply Permutation_app_head. apply Permutation_app_swap_app.
Qed.

Lemma finallyCallback_last s :
  queue s = [] ->
  finallyCallback s =
  if (running s - 1 =? 0)%Z then notify (decr_running s) else decr_running s.
Proof.
  intros Hq. unfold finallyCallback. simpl. rewrite Hq. simpl. rewrite Hq. simpl.
  by rewrite andb_true_r.
Qed.

Lemma finallyCallback_next s :
  queue s <> [] -> (running s <> 0)%Z ->
  finallyCallback s = _startThread (decr_running s).
Proof.
  intros Hq Hr. unfold finallyCallback. simpl.
  destruct (queue s) as [|t rest] eqn:Hqs; [done|]. simpl.
  rewrite (startThread_cons (decr_running s) t rest Hqs). simpl.
  replace (running s - 1 + 1)%Z with (running s) by lia.
  apply Z.eqb_neq in Hr. by rewrite Hr.
Qed.

Lemma finallyCallback_fields s :
  let s2 := if 0 <? length (queue s) then _startThread (decr_running s)
            else decr_running s in
  calls (finallyCallback s) = calls s2 /\
  queue (finallyCallback s) = queue s2 /\
  running (finallyCallback s) = running s2.
Proof.
  unfold finallyCallback. simpl. destruct (_ && _)%bool; [|done].
  unfold notify. by destruct (_onComplete _).
Qed.

(** What one callback does to the counter, the queue and the calls: it
    leaves queue and calls alone and takes one from [running] exactly when
    it is a [finally] that finds the queue empty; a [finally] that finds a
    job waiting calls that job, the head of the queue, and leaves
    [running] as it was. *)
Lemma tick_dispatch i s s' :
  tick i s = Some s' ->
  (calls s' = calls s /\ queue s' = queue s /\
   running s' = (running s - (if finalizes i s then 1 else 0))%Z) \/
  (exists t rest, finalizes i s = true /\ queue s = t :: rest /\
     calls s' = calls s ++ [t] /\ queue s' = rest /\
     running s' = (running s - 1 + 1)%Z).
Proof.
  intros Htick.
  destruct (tick_cases _ _ _ Htick) as (t & ph & l1 & l2 & Hl & Hi & Hs').
  assert (Hfin : finalizes i s = match ph with AwaitFinally => true | _ => false end).
  { unfold finalizes. rewrite Hl, <- Hi, list_lookup_middle by done. by destruct ph. }
  rewrite Hfin. destruct ph.
  - left. destruct Hs' as [(v & _ & ->)|(e & _ & ->)]; simpl; repeat split; lia.
  - left. destruct Hs' as [(e & _ & ->)|(_ & ->)]; simpl; repeat split; lia.
  - subst s'.
    destruct (finallyCallback_fields (set_chains (l1 ++ l2) s)) as (Hc & Hq & Hr).
    rewrite Hc, Hq, Hr. simpl.
    destruct (queue s) as [|t' rest] eqn:Hqs; simpl.
    + left. by rewrite Hqs.
    + right. exists t', rest.
      rewrite (startThread_cons (decr_running (set_chains (l1 ++ l2) s)) t' rest Hqs).
      done.
Qed.

(** *** The number of callbacks left *)

Lemma work_startThread s : work (_startThread s) = work s.
Proof.
  destruct (queue s) as [|t rest] eqn:Hq.
  - unfold _startThread. by rewrite Hq.
  - rewrite (startThread_cons s t rest Hq). unfold work. simpl.
    rewrite Hq, sum_list_with_app. simpl. lia.
Qed.

Lemma work_startThreads_loop fuel s : work (startThreads_loop fuel s) = work s.
Proof.
  revert s. induction fuel as [|fuel IH]; intros s; simpl; [done|].
  destruct (_ && _)%bool; [|done]. by rewrite IH, work_startThread.
Qed.

Lemma work_finallyCallback s : work (finallyCallback s) = work s.
Proof.
  unfold finallyCallback.
  assert (Hn : forall s0, work (notify s0) = work s0).
  { intros s0. unfold notify. by destruct (_onComplete s0). }
  destruct (_ && _)%bool; rewrite ?Hn; destruct (0 <? _);
    by rewrite ?work_startThread.
Qed.

Lemma tick_work i s s' : tick i s = Some s' -> work s = S (work s').
Proof.
  intros Htick.
  destruct (tick_cases _ _ _ Htick) as (t & ph & l1 & l2 & Hl & _ & Hs').
  assert (Hw : forall c, work (set_chains c s)
                 = 3 * length (queue s) + sum_list_with (fun c => phase_weight (snd c)) c)
    by done.
  unfold work at 1. rewrite Hl, sum_list_with_app. simpl.
  destruct ph.
  - destruct Hs' as [(v & _ & ->)|(e & _ & ->)];
      [change (work (thenCallback v ?x)) with (work x)|];
      rewrite Hw, sum_list_with_app; simpl; lia.
  - destruct Hs' as [(e & _ & ->)|(_ & ->)];
      [change (work (catchCallback e ?x)) with (work x)|];
      rewrite Hw, sum_list_with_app; simpl; lia.
  - subst s'. rewrite work_finallyCallback, Hw, sum_list_with_app. simpl. lia.
Qed.

Lemma exec_work sched s s' :
  exec sched s = Some s' -> work s = length sched + work s'.
Proof.
  revert s. induction sched as [|i sched IH]; intros s H; simpl in *.
  - by simplify_eq.
  - destruct (tick i s) as [s1|] eqn:Ht; [|discriminate].
    rewrite (tick_work _ _ _ Ht), (IH _ H). lia.
Qed.

(** *** The invariant is established by [runAll] and kept by every callback *)

Section Run.
Context (base : State) (tasks : list Task).

Lemma Core_startThread s n :
  Core base tasks s n ->
  queue s <> [] ->
  (running s < maxThreads s)%Z ->
  Core base tasks (_startThread s) (S n).
Proof.
  intros [Hmax Hn Hq Hcalls Hrun Hch Hst Hres Hcon Hb Hunc] Hne Hlt.
  destruct (queue s) as [|t rest] eqn:Hqs; [done|].
  rewrite (startThread_cons s t rest Hqs).
  symmetry in Hq. destruct (queue_head _ _ _ _ Hq) as (Hlen & Hdrop & Htake & Hin).
  constructor; simpl.
  - done.
  - lia.
  - by rewrite Hdrop.
  - by rewrite Htake, Hcalls, app_assoc.
  - rewrite length_app. simpl. lia.
  - apply Forall_app. split; [done|]. by constructor.
  - rewrite length_app. simpl. lia.
  - destruct Hres as (new & Hr & Hp). exists new. split; [done|].
    rewrite <- Hp, awaiting_then_app. simpl. by rewrite <- app_assoc.
  - destruct Hcon as (new & Hr & Hp). exists new. split; [done|].
    rewrite <- Hp, awaiting_catch_app. simpl. by rewrite <- app_assoc.
  - rewrite Hmax in Hlt. lia.
  - done.
Qed.

Lemma startThreads_loop_Core fuel s n :
  Core base tasks s n ->
  exists n',
    n <= n' /\ Core base tasks (startThreads_loop fuel s) n' /\
    length (chains (startThreads_loop fuel s)) + n = length (chains s) + n' /\
    resolved (startThreads_loop fuel s) = resolved s /\
    results (startThreads_loop fuel s) = results s.
Proof.
  revert s n. induction fuel as [|fuel IH]; intros s n HC; simpl.
  { exists n. auto. }
  destruct ((running s <? maxThreads s)%Z && (0 <? length (queue s)))%bool eqn:Hc;
    [|exists n; auto].
  apply andb_true_iff in Hc as [Hlt Hq].
  apply Z.ltb_lt in Hlt.
  assert (Hne : queue s <> []) by (destruct (queue s); [discriminate|done]).
  destruct (IH _ _ (Core_startThread _ _ HC Hne Hlt)) as (n' & Hle & HC' & Hlen & Hres & Hr).
  exists n'. split; [lia|]. split; [done|].
  destruct (queue s) as [|t rest] eqn:Hqs; [done|].
  rewrite (startThread_cons s t rest Hqs) in *. simpl in *.
  rewrite length_app in Hlen. simpl in Hlen. split; [lia|done].
Qed.

Lemma Core_push_all :
  idle base -> Core base tasks (push_all tasks base) 0.
Proof.
  intros (Hr & Hq & Hc). constructor; simpl.
  - done.
  - lia.
  - by rewrite Hq.
  - by rewrite app_nil_r.
  - by rewrite Hr, Hc.
  - rewrite Hc. constructor.
  - rewrite Hc. simpl. lia.
  - exists []. split; [by rewrite app_nil_r|]. by rewrite Hc, Hq.
  - exists []. split; [by rewrite app_nil_r|]. by rewrite Hc, Hq.
  - rewrite Hr. lia.
  - done.
Qed.

Lemma Inv_runAll :
  idle base -> exists n, Inv base tasks (runAll tasks base) n.
Proof.
  intros Hidle.
  destruct (startThreads_loop_Core (length (queue (push_all tasks base)))
              _ _ (Core_push_all Hidle)) as (n & _ & HC & Hlen & Hres & _).
  fold (_startThreads (push_all tasks base)) in *.
  pose proof (startThreads_exit (push_all tasks base)) as Hexit.
  exists n. unfold runAll.
  set (s' := _startThreads (push_all tasks base)) in *.
  destruct HC as [Hmax Hn Hq Hcalls Hrun Hch Hst Hr Hcon Hb Hunc].
  constructor; [constructor|..]; simpl; try done.
  - intros Hne. destruct Hexit as [Hge|Hnil]; [|done].
    apply Z.ltb_ge in Hge. lia.
  - rewrite Hres. simpl. destruct Hidle as (_ & _ & Hc). simpl in Hlen. rewrite Hc in Hlen. simpl in Hlen.
    rewrite bool_decide_eq_false_2; [by rewrite app_nil_r|].
    intros [Hnil Hpos]. rewrite Hnil in Hlen. simpl in Hlen. lia.
Qed.

Lemma Inv_tick s n i s' :
  Inv base tasks s n ->
  tick i s = Some s' ->
  exists n', n <= n' /\ Inv base tasks s' n'.
Proof.
  intros [[Hmax Hn Hq Hcalls Hrun Hch Hst (nr & Hres & Hpr) (nc & Hcon & Hpc) Hb Hunc]
            Hsat Hrsv Hon Hprom] Htick.
  destruct (tick_cases _ _ _ Htick) as (t & ph & l1 & l2 & Hl & _ & Hs').
  assert (Hne : chains s <> []) by (rewrite Hl; by destruct l1).
  rewrite bool_decide_eq_false_2, app_nil_r in Hrsv by (intros [? _]; done).
  rewrite Hl in *. clear Hl.
  apply Forall_app in Hch as [Hch1 Hch2]. apply Forall_cons in Hch2 as [Hint Hch2].
  assert (Hne' : forall c, l1 ++ c :: l2 <> []) by (intros c; by destruct l1).
  destruct ph; revert Hpr Hpc Hst Hrun; chain_lists; intros Hpr Hpc Hst Hrun.
  - (* then *)
    destruct Hs' as [(v & Ho & ->)|(e & Ho & ->)]; exists n; (split; [lia|]);
      (constructor; [constructor|..]); simpl; chain_lists; try done;
      try (by apply Forall_app; split; [|constructor]);
      try (by exists nc);
      try (by rewrite bool_decide_eq_false_2, app_nil_r; [|intros [? _]; by eapply Hne']).
    + exists (nr ++ [v]). split; [by rewrite Hres, app_assoc|].
      assert (Hf : fulfilled_value t = [v]) by (unfold fulfilled_value; by rewrite Ho).
      by rewrite <- Hpr, flat_map_take_out, Hf.
    + exists nr. split; [done|].
      assert (Hf : fulfilled_value t = []) by (unfold fulfilled_value; by rewrite Ho).
      by rewrite <- Hpr, flat_map_take_out, Hf, app_nil_r.
  - (* catch *)
    destruct Hs' as [(e & Ho & ->)|(Ho & ->)]; exists n; (split; [lia|]);
      (constructor; [constructor|..]); simpl; chain_lists; try done;
      try (by apply Forall_app; split; [|constructor]);
      try (by exists nr);
      try (by rewrite bool_decide_eq_false_2, app_nil_r; [|intros [? _]; by eapply Hne']).
    + exists (nc ++ [e]). split; [by rewrite Hcon, app_assoc|].
      assert (Hf : rejected_reason t = [e]) by (unfold rejected_reason; by rewrite Ho).
      by rewrite <- Hpc, flat_map_take_out, Hf.
    + exists nc. split; [done|].
      by rewrite <- Hpc, flat_map_take_out, Ho, app_nil_r.
  - (* finally *)
    subst s'.
    assert (HC : Core base tasks (decr_running (set_chains (l1 ++ l2) s)) n).
    { constructor; simpl; chain_lists; try done.
      - lia.
      - by apply Forall_app.
      - lia.
      - by exists nr.
      - by exists nc.
      - lia. }
    destruct (decide (queue s = [])) as [Hqs|Hqs].
    + exists n. split; [lia|].
      rewrite finallyCallback_last by done. simpl.
      destruct (running s - 1 =? 0)%Z eqn:Hz.
      * apply Z.eqb_eq in Hz.
        assert (Hnil : l1 ++ l2 = []).
        { apply length_zero_iff_nil. rewrite length_app. lia. }
        unfold notify. simpl. rewrite Hon.
        destruct HC as [? ? ? ? ? ? ? ? ? ? ?].
        constructor; [constructor|..]; simpl in *; try done.
        rewrite Hnil. rewrite bool_decide_eq_true_2; [by rewrite Hrsv|]. split; [done|lia].
      * apply Z.eqb_neq in Hz.
        constructor; simpl; try done.
        rewrite bool_decide_eq_false_2, app_nil_r; [done|]. intros [Hnil _].
        apply (f_equal length) in Hnil. rewrite length_app in Hnil. simpl in Hnil. lia.
    + exists (S n). split; [lia|].
      rewrite finallyCallback_next; simpl; [|done|lia].
      assert (HC' : Core base tasks (_startThread (decr_running (set_chains (l1 ++ l2) s))) (S n)).
      { apply Core_startThread; simpl; [done|done|]. rewrite Hmax. lia. }
      destruct (queue s) as [|t' rest] eqn:Hqs'; [done|].
      rewrite (startThread_cons (decr_running (set_chains (l1 ++ l2) s)) t' rest Hqs') in *.
      simpl in *.
      constructor; simpl; try done.
      * intros _. specialize (Hsat ltac:(done)). lia.
      * rewrite bool_decide_eq_false_2, app_nil_r; [done|]. intros [Hnil _].
        by destruct (l1 ++ l2).
Qed.

Lemma work_runAll :
  idle base -> work (runAll tasks base) = 3 * length tasks.
Proof.
  intros (_ & Hq & Hc).
  transitivity (work (_startThreads (push_all tasks base))); [done|].
  unfold _startThreads. rewrite work_startThreads_loop.
  unfold work. simpl. rewrite Hq, Hc. simpl. lia.
Qed.

Lemma Inv_exec sched s n s' :
  Inv base tasks s n ->
  exec sched s = Some s' ->
  exists n', n <= n' /\ Inv base tasks s' n'.
Proof.
  revert s n. induction sched as [|i sched IH]; intros s n HI H; simpl in *.
  - simplify_eq. exists n. auto.
  - destruct (tick i s) as [s1|] eqn:Ht; [|discriminate].
    destruct (Inv_tick _ _ _ _ HI Ht) as (n1 & Hle & HI1).
    destruct (IH _ _ HI1 H) as (n' & Hle' & HI'). exists n'. split; [lia|done].
Qed.

Lemma Inv_reachable sched s :
  idle base ->
  exec sched (runAll tasks base) = Some s ->
  exists n, Inv base tasks s n.
Proof.
  intros Hidle H. destruct (Inv_runAll Hidle) as (n0 & HI0).
  destruct (Inv_exec _ _ _ _ HI0 H) as (n & _ & HI). by exists n.
Qed.

(** *** Progress and the state at the end *)

Lemma Inv_progress s n :
  Inv base tasks s n ->
  Forall settles tasks ->
  chains s <> [] ->
  exists s', tick 0 s = Some s'.
Proof.
  intros [HC _ _ _ _] Hall Hne. unfold tick.
  destruct (chains s) as [|[t ph] l] eqn:Hl; [done|]. simpl.
  pose proof (core_chains _ _ _ _ HC) as Hch. rewrite Hl in Hch.
  apply Forall_cons in Hch as [Hin _]. simpl in Hin.
  rewrite Forall_forall in Hall. specialize (Hall _ Hin). unfold settles in Hall.
  destruct ph, (task_outcome t); try done; eauto.
Qed.

Lemma Inv_work_chains s n :
  Inv base tasks s n ->
  (1 <= maxThreads base)%Z ->
  chains s = [] <-> work s = 0.
Proof.
  intros [HC Hsat _ _ _] HK. unfold work. split.
  - intros Hnil.
    destruct (decide (queue s = [])) as [Hq|Hq].
    + by rewrite Hq, Hnil.
    + specialize (Hsat Hq). rewrite (core_running _ _ _ _ HC), Hnil in Hsat.
      simpl in Hsat. lia.
  - intros Hw. destruct (chains s) as [|[t ph] l]; [done|].
    simpl in Hw. destruct ph; simpl in Hw; lia.
Qed.

Lemma Inv_final s n :
  Inv base tasks s n ->
  (1 <= maxThreads base)%Z ->
  chains s = [] ->
  queue s = [] /\ running s = 0%Z /\
  calls s = calls base ++ tasks /\
  (exists new, results s = results base ++ new /\
               new ≡ₚ flat_map fulfilled_value tasks) /\
  (exists new, console s = console base ++ new /\
               new ≡ₚ flat_map rejected_reason tasks) /\
  resolved s = resolved base ++
               (if bool_decide (tasks = []) then []
                else [(promises base, results s)]).
Proof.
  intros [HC Hsat Hrsv _ _] HK Hnil.
  destruct HC as [Hmax Hn Hq Hcalls Hrun Hch Hst (nr & Hres & Hpr) (nc & Hcon & Hpc) Hb Hunc].
  rewrite Hnil in *. simpl in *.
  assert (Hqs : queue s = []).
  { destruct (decide (queue s = [])) as [|Hne]; [done|]. specialize (Hsat Hne). lia. }
  rewrite Hqs in *. simpl in *. rewrite app_nil_r in Hpr, Hpc.
  assert (Hlen : length tasks <= n).
  { symmetry in Hq. apply (f_equal length) in Hq. rewrite length_drop in Hq. simpl in Hq. lia. }
  rewrite (take_ge tasks n Hlen) in *.
  repeat split; try done; eauto.
  rewrite Hrsv. f_equal.
  destruct tasks as [|t tasks'].
  - simpl in *. assert (n = 0) by lia. subst n.
    rewrite bool_decide_eq_false_2 by lia. done.
  - rewrite bool_decide_eq_true_2 by (simpl in Hlen; split; [done|lia]). done.
Qed.

Lemma idle_final s n :
  Inv base tasks s n -> (1 <= maxThreads base)%Z -> chains s = [] -> idle s.
Proof.
  intros HI HK Hnil. destruct (Inv_final _ _ HI HK Hnil) as (Hq & Hr & _). done.
Qed.

(** Every run ends: a schedule cannot be longer than three callbacks per
    job, while callbacks are left one of them can run, and when none is
    left every job has been called and notified. *)
Lemma run_total sched s :
  idle base ->
  (1 <= maxThreads base)%Z ->
  Forall settles tasks ->
  exec sched (runAll tasks base) = Some s ->
  exists n,
    Inv base tasks s n /\
    length sched + work s = 3 * length tasks /\
    (length sched < 3 * length tasks -> exists s', tick 0 s = Some s') /\
    (length sched = 3 * length tasks -> chains s = []).
Proof.
  intros Hidle HK Hall Hexec.
  destruct (Inv_reachable _ _ Hidle Hexec) as (n & HI).
  pose proof (exec_work _ _ _ Hexec) as Hw.
  rewrite (work_runAll Hidle) in Hw.
  exists n. split; [done|]. split; [lia|]. split.
  - intros Hlt. eapply Inv_progress; [done..|].
    intros Hnil. apply (Inv_work_chains _ _ HI HK) in Hnil. lia.
  - intros Heq. apply (Inv_work_chains _ _ HI HK). lia.
Qed.

End Run.

(** *** The claims about the runner *)

Lemma idle_new K : idle (new_ThreadPool K).
Proof. done. Qed.

Lemma fulfilled_values_length tasks :
  length (flat_map fulfilled_value tasks) <= length tasks.
Proof.
  induction tasks as [|t tasks IH]; simpl; [done|].
  rewrite length_app. unfold fulfilled_value at 1.
  destruct (task_outcome t); simpl; lia.
Qed.

Lemma fulfilled_values_all tasks :
  Forall (fun t => exists v, task_outcome t = Fulfilled v) tasks ->
  length (flat_map fulfilled_value tasks) = length tasks.
Proof.
  induction 1 as [|t tasks [v Hv] _ IH]; simpl; [done|].
  rewrite length_app, IH. unfold fulfilled_value. by rewrite Hv.
Qed.

(** C1 (amended). For every list of N >= 1 jobs that all settle and every
    limit K >= 1, [runAll] resolves, after the 3N callbacks of the run in
    whatever order and not before, and the collection it resolves with,
    [this.results], holds exactly the values of the fulfilled jobs, one
    entry each and none for a rejected job: at most N entries, and N when
    no job rejects. *)
Theorem runAll_resolves_with_fulfilled
    (K : Z) (tasks : list Task) (sched : list nat) (s : State) :
  (1 <= K)%Z ->
  tasks <> [] ->
  Forall settles tasks ->
  exec sched (runAll tasks (new_ThreadPool K)) = Some s ->
  length sched <= 3 * length tasks /\
  (length sched < 3 * length tasks ->
     resolved s = [] /\ exists s', tick 0 s = Some s') /\
  (length sched = 3 * length tasks ->
     resolved s = [(0, results s)] /\
     results s ≡ₚ flat_map fulfilled_value tasks /\
     length (results s) <= length tasks /\
     (Forall (fun t => exists v, task_outcome t = Fulfilled v) tasks ->
      length (results s) = length tasks)).
Proof.
  intros HK Hne Hall Hexec.
  destruct (run_total _ _ _ _ (idle_new K) HK Hall Hexec) as (n & HI & Hw & Hprog & Hend).
  split; [lia|]. split.
  - intros Hlt. destruct (Hprog Hlt) as (s' & Hs'). split; [|by exists s'].
    rewrite (inv_resolved _ _ _ _ HI). simpl.
    rewrite bool_decide_eq_false_2; [done|]. intros [Hnil _].
    unfold tick in Hs'. rewrite Hnil in Hs'. discriminate.
  - intros Heq. specialize (Hend Heq).
    destruct (Inv_final _ _ _ _ HI HK Hend)
      as (_ & _ & _ & (new & Hres & Hperm) & _ & Hrsv).
    simpl in *. subst new. rewrite bool_decide_eq_false_2 in Hrsv by done.
    split; [done|]. split; [done|]. rewrite Hperm.
    split; [apply fulfilled_values_length|apply fulfilled_values_all].
Qed.

Lemma runAll_resolves_with_fulfilled_witness :
  let tasks := [mkTask 0 (Rejected (JsString "boom"));
                mkTask 1 (Fulfilled (JsNumber 7))] in
  (1 <= 1)%Z /\ tasks <> [] /\ Forall settles tasks /\
  exists s,
    exec [0; 0; 0; 0; 0; 0] (runAll tasks (new_ThreadPool 1)) = Some s /\
    resolved s = [(0, results s)] /\
    results s ≡ₚ flat_map fulfilled_value tasks.
Proof.
  intros tasks.
  assert (Hall : Forall settles tasks) by (repeat constructor; discriminate).
  split; [lia|]. split; [discriminate|]. split; [exact Hall|].
  assert (Hrun : exists s,
             exec [0; 0; 0; 0; 0; 0] (runAll tasks (new_ThreadPool 1)) = Some s)
    by (eexists; vm_compute; reflexivity).
  destruct Hrun as [s Hs]. exists s. split; [exact Hs|].
  destruct (runAll_resolves_with_fulfilled 1 tasks [0; 0; 0; 0; 0; 0] s
              ltac:(lia) ltac:(discriminate) Hall Hs) as (_ & _ & Hend).
  destruct (Hend eq_refl) as (Hr & Hp & _). split; [exact Hr|exact Hp].
Defined.

(** C1 (as stated) fails: a single job that rejects, limit 1. [runAll]
    resolves with an empty collection, not with one entry. *)
Lemma one_entry_per_job_fails :
  ~ one_entry_per_job [mkTask 0 (Rejected (JsString "boom"))] 1.
Proof.
  intros H.
  specialize (H [0; 0; 0] _ 0 [] eq_refl). simpl in H.
  specialize (H ltac:(by constructor)). discriminate.
Qed.

(** C2 (the code at the failing input). With no job, [runAll] starts
    nothing and stores [resolve], and no callback is left that could call
    it: no schedule but the empty one runs, and in the state reached
    [resolve] has not been called. *)
Theorem runAll_empty_never_resolves (K : Z) (sched : list nat) :
  calls (runAll [] (new_ThreadPool K)) = [] /\
  resolved (runAll [] (new_ThreadPool K)) = [] /\
  _onComplete (runAll [] (new_ThreadPool K)) = Some 0 /\
  exec sched (runAll [] (new_ThreadPool K)) =
    match sched with
    | [] => Some (runAll [] (new_ThreadPool K))
    | _ :: _ => None
    end.
Proof.
  repeat split. by destruct sched.
Qed.

(** C3. Under a limit K >= 1 and with jobs that settle, the calls of the
    jobs are at every moment a prefix of the submitted list, the queue being
    the rest (no job is called twice or out of turn); every schedule can be
    continued until its 3N callbacks have run; and then the calls are
    exactly the submitted list: every job has been called once, none
    skipped. *)
Theorem every_job_called_once
    (K : Z) (tasks : list Task) (sched : list nat) (s : State) :
  (1 <= K)%Z ->
  Forall settles tasks ->
  exec sched (runAll tasks (new_ThreadPool K)) = Some s ->
  (exists n, calls s = take n tasks /\ queue s = drop n tasks) /\
  length sched <= 3 * length tasks /\
  (length sched < 3 * length tasks -> exists s', tick 0 s = Some s') /\
  (length sched = 3 * length tasks -> calls s = tasks /\ queue s = []).
Proof.
  intros HK Hall Hexec.
  destruct (run_total _ _ _ _ (idle_new K) HK Hall Hexec) as (n & HI & Hw & Hprog & Hend).
  split; [|split; [lia|split; [done|]]].
  - exists n. destruct HI as [HC _ _ _ _].
    split; [apply (core_calls _ _ _ _ HC)|apply (core_queue _ _ _ _ HC)].
  - intros Heq.
    destruct (Inv_final _ _ _ _ HI HK (Hend Heq)) as (Hq & _ & Hc & _). done.
Qed.

Lemma every_job_called_once_witness :
  let tasks := [mkTask 0 (Fulfilled JsUndefined);
                mkTask 1 (Rejected (JsString "boom"));
                mkTask 2 (Fulfilled (JsNumber 2))] in
  (1 <= 2)%Z /\ Forall settles tasks /\
  exists s,
    exec [1; 0; 1; 0; 0; 1; 0; 0; 0] (runAll tasks (new_ThreadPool 2)) = Some s /\
    calls s = tasks /\ queue s = [].
Proof.
  intros tasks.
  assert (Hall : Forall settles tasks) by (repeat constructor; discriminate).
  split; [lia|]. split; [exact Hall|].
  assert (Hrun : exists s,
             exec [1; 0; 1; 0; 0; 1; 0; 0; 0] (runAll tasks (new_ThreadPool 2)) = Some s)
    by (eexists; vm_compute; reflexivity).
  destruct Hrun as [s Hs]. exists s. split; [exact Hs|].
  destruct (every_job_called_once 2 tasks [1; 0; 1; 0; 0; 1; 0; 0; 0] s
              ltac:(lia) Hall Hs) as (_ & _ & _ & Hend).
  exact (Hend eq_refl).
Defined.

(** C4. In a run of N jobs under a limit K >= 1, [running] stays between 0
    and min(K, N): in every pass of the loop of [_startThreads], between
    any two callbacks, and right after the [running--] of a [finally]
    callback. It counts the pending chains; the synchronous part raises it
    by one per call of a job, and a callback changes it only by the -1 of a
    [finally] and the +1 of the job that this [finally] calls. *)
Theorem running_within_limit
    (K : Z) (tasks : list Task) (sched : list nat) (s : State) :
  (1 <= K)%Z ->
  exec sched (runAll tasks (new_ThreadPool K)) = Some s ->
  (forall fuel,
     let s0 := startThreads_loop fuel (push_all tasks (new_ThreadPool K)) in
     (0 <= running s0 <= Z.min K (Z.of_nat (length tasks)))%Z /\
     running s0 = Z.of_nat (length (calls s0))) /\
  (0 <= running s <= Z.min K (Z.of_nat (length tasks)))%Z /\
  running s = Z.of_nat (length (chains s)) /\
  (forall i s', tick i s = Some s' ->
     (0 <= running s - (if finalizes i s then 1 else 0))%Z /\
     length (calls s) <= length (calls s') /\
     running s' =
       (running s - (if finalizes i s then 1 else 0)
        + Z.of_nat (length (calls s') - length (calls s)))%Z).
Proof.
  intros HK Hexec. split; [|split; [|split]].
  - intros fuel s0.
    destruct (startThreads_loop_Core _ tasks fuel _ _
                (Core_push_all _ tasks (idle_new K)))
      as (n & _ & [Hmax Hn _ Hcalls Hrun _ Hst _ _ Hb _] & Hlen & _).
    fold s0 in Hmax, Hcalls, Hrun, Hst, Hb, Hlen. simpl in *.
    rewrite Hcalls, length_take. lia.
  - destruct (Inv_reachable _ _ _ _ (idle_new K) Hexec)
      as (n & [[_ Hn _ _ Hrun _ Hst _ _ Hb _] _ _ _ _]).
    simpl in *. lia.
  - destruct (Inv_reachable _ _ _ _ (idle_new K) Hexec) as (n & [HC _ _ _ _]).
    apply (core_running _ _ _ _ HC).
  - intros i s' Htick.
    destruct (Inv_reachable _ _ _ _ (idle_new K) Hexec) as (n & [HC _ _ _ _]).
    pose proof (core_running _ _ _ _ HC) as Hrun.
    assert (Hpos : finalizes i s = true -> (1 <= running s)%Z).
    { unfold finalizes. destruct (chains s) as [|c l]; [by rewrite lookup_nil|].
      intros _. rewrite Hrun. simpl. lia. }
    destruct (tick_dispatch _ _ _ Htick)
      as [(Hc & _ & Hr)|(t & rest & Hf & _ & Hc & _ & Hr)].
    + rewrite Hc, Hr, Nat.sub_diag. destruct (finalizes i s); [specialize (Hpos eq_refl)|]; lia.
    + rewrite Hc, Hr, Hf, length_app. specialize (Hpos Hf). simpl. lia.
Qed.

Lemma running_within_limit_witness :
  let tasks := [mkTask 0 (Fulfilled JsUndefined);
                mkTask 1 (Rejected (JsString "boom"));
                mkTask 2 (Fulfilled (JsNumber 2))] in
  (1 <= 2)%Z /\
  exists s,
    exec [1; 0; 1; 0; 0] (runAll tasks (new_ThreadPool 2)) = Some s /\
    (0 <= running s <= Z.min 2 (Z.of_nat (length tasks)))%Z /\
    running s = Z.of_nat (length (chains s)).
Proof.
  intros tasks. split; [lia|].
  assert (Hrun : exists s,
             exec [1; 0; 1; 0; 0] (runAll tasks (new_ThreadPool 2)) = Some s)
    by (eexists; vm_compute; reflexivity).
  destruct Hrun as [s Hs]. exists s. split; [exact Hs|].
  destruct (running_within_limit 2 tasks [1; 0; 1; 0; 0] s ltac:(lia) Hs)
    as (_ & Hb & Hr & _).
  split; [exact Hb|exact Hr].
Defined.

(** C5 (the code at the failing input). After [runAll] on an empty list
    nothing runs and nothing waits, yet [resolve] has not been called and no
    callback is left: the operation never completes. *)
Theorem runAll_empty_hangs (K : Z) :
  let s := runAll [] (new_ThreadPool K) in
  running s = 0%Z /\ queue s = [] /\ chains s = [] /\ work s = 0 /\
  resolved s = [] /\ forall i, tick i s = None.
Proof. by repeat split. Qed.

(** C6 (amended). Whatever jobs of a non-empty list reject, under a limit
    K >= 1: no exception leaves a callback; the reason of each rejection is
    written once with [console.error] when its [catch] callback runs, and
    nothing is added to [results] for it; the counter equals the number of
    pending chains and calls and queue split the submitted list; every
    schedule can be continued to its end; and at the end every job has been
    called, [results] holds the values of the fulfilled jobs only, the
    console the reasons of the rejected ones, and [resolve] has been called
    once. *)
Theorem failures_logged_not_recorded
    (K : Z) (tasks : list Task) (sched : list nat) (s : State) :
  (1 <= K)%Z ->
  tasks <> [] ->
  Forall settles tasks ->
  exec sched (runAll tasks (new_ThreadPool K)) = Some s ->
  uncaught s = 0 /\
  console s ++ flat_map rejected_reason (awaiting_catch (chains s) ++ queue s)
    ≡ₚ flat_map rejected_reason tasks /\
  results s ++ flat_map fulfilled_value (awaiting_then (chains s) ++ queue s)
    ≡ₚ flat_map fulfilled_value tasks /\
  running s = Z.of_nat (length (chains s)) /\
  (exists n, calls s = take n tasks /\ queue s = drop n tasks) /\
  length sched <= 3 * length tasks /\
  (length sched < 3 * length tasks -> exists s', tick 0 s = Some s') /\
  (length sched = 3 * length tasks ->
     calls s = tasks /\ queue s = [] /\ running s = 0%Z /\
     console s ≡ₚ flat_map rejected_reason tasks /\
     results s ≡ₚ flat_map fulfilled_value tasks /\
     resolved s = [(0, results s)]).
Proof.
  intros HK Hne Hall Hexec.
  destruct (run_total _ _ _ _ (idle_new K) HK Hall Hexec) as (n & HI & Hw & Hprog & Hend).
  pose proof HI as [[_ _ Hq Hcalls Hrun _ _ (nr & Hres & Hpr) (nc & Hcon & Hpc) _ Hunc] _ _ _ _].
  simpl in *. subst nr nc.
  repeat (split; [done || lia || by exists n|]).
  intros Heq.
  destruct (Inv_final _ _ _ _ HI HK (Hend Heq))
    as (Hq' & Hr' & Hc' & (nr & Hres' & Hpr') & (nc & Hcon' & Hpc') & Hrsv).
  simpl in *. subst nr nc. rewrite bool_decide_eq_false_2 in Hrsv by done.
  done.
Qed.

Lemma failures_logged_not_recorded_witness :
  let tasks := [mkTask 0 (Rejected (JsString "boom"));
                mkTask 1 (Fulfilled (JsNumber 7))] in
  (1 <= 1)%Z /\ tasks <> [] /\ Forall settles tasks /\
  exists s,
    exec [0; 0; 0; 0; 0; 0] (runAll tasks (new_ThreadPool 1)) = Some s /\
    console s ≡ₚ flat_map rejected_reason tasks /\
    results s ≡ₚ flat_map fulfilled_value tasks /\
    resolved s = [(0, results s)].
Proof.
  intros tasks.
  assert (Hall : Forall settles tasks) by (repeat constructor; discriminate).
  split; [lia|]. split; [discriminate|]. split; [exact Hall|].
  assert (Hrun : exists s,
             exec [0; 0; 0; 0; 0; 0] (runAll tasks (new_ThreadPool 1)) = Some s)
    by (eexists; vm_compute; reflexivity).
  destruct Hrun as [s Hs]. exists s. split; [exact Hs|].
  destruct (failures_logged_not_recorded 1 tasks [0; 0; 0; 0; 0; 0] s
              ltac:(lia) ltac:(discriminate) Hall Hs)
    as (_ & _ & _ & _ & _ & _ & _ & Hend).
  destruct (Hend eq_refl) as (_ & _ & _ & Hc & Hr & Hv).
  split; [exact Hc|]. split; [exact Hr|exact Hv].
Defined.

(** C6 (as stated) fails: a single job that rejects with the reason
    [boom], limit 1. [runAll] resolves with an empty collection: nothing in
    it records the failure, which went to [console.error]. *)
Lemma failures_in_results_fails :
  ~ failures_in_results [mkTask 0 (Rejected (JsString "boom"))] 1.
Proof.
  intros H.
  specialize (H [0; 0; 0] _ 0 [] eq_refl). simpl in H.
  specialize (H ltac:(by constructor)). lia.
Qed.

(** C7. Jobs are started in the order of submission: the calls are always
    a prefix of the submitted list and the queue is the rest, and a callback
    that starts a job starts the head of the queue, the earliest job not
    yet started. Completion is not ordered: two jobs started together fill
    [results] in either order. *)
Theorem jobs_start_in_fifo_order
    (K : Z) (tasks : list Task) (sched : list nat) (s : State) :
  exec sched (runAll tasks (new_ThreadPool K)) = Some s ->
  (exists n, calls s = take n tasks /\ queue s = drop n tasks) /\
  (forall i s', tick i s = Some s' ->
     (calls s' = calls s /\ queue s' = queue s) \/
     (exists t rest, queue s = t :: rest /\
        calls s' = calls s ++ [t] /\ queue s' = rest)) /\
  (let a := mkTask 0 (Fulfilled (JsNumber 0)) in
   let b := mkTask 1 (Fulfilled (JsNumber 1)) in
   option_map results (exec [0; 1; 0; 1; 0; 0] (runAll [a; b] (new_ThreadPool 2)))
     = Some [JsNumber 0; JsNumber 1] /\
   option_map results (exec [1; 0; 1; 0; 0; 0] (runAll [a; b] (new_ThreadPool 2)))
     = Some [JsNumber 1; JsNumber 0]).
Proof.
  intros Hexec.
  destruct (Inv_reachable _ _ _ _ (idle_new K) Hexec) as (n & [HC _ _ _ _]).
  split; [|split].
  - exists n. split; [apply (core_calls _ _ _ _ HC)|apply (core_queue _ _ _ _ HC)].
  - intros i s' Htick.
    destruct (tick_dispatch _ _ _ Htick)
      as [(Hc & Hq & _)|(t & rest & _ & Hq & Hc & Hq' & _)]; [by left|].
    right. by exists t, rest.
  - split; vm_compute; reflexivity.
Qed.

Lemma jobs_start_in_fifo_order_witness :
  let tasks := [mkTask 0 (Fulfilled JsUndefined);
                mkTask 1 (Rejected (JsString "boom"));
                mkTask 2 (Fulfilled (JsNumber 2))] in
  exists s,
    exec [1; 0; 1; 0; 0] (runAll tasks (new_ThreadPool 2)) = Some s /\
    exists n, calls s = take n tasks /\ queue s = drop n tasks.
Proof.
  intros tasks.
  assert (Hrun : exists s,
             exec [1; 0; 1; 0; 0] (runAll tasks (new_ThreadPool 2)) = Some s)
    by (eexists; vm_compute; reflexivity).
  destruct Hrun as [s Hs]. exists s. split; [exact Hs|].
  exact (proj1 (jobs_start_in_fifo_order 2 tasks [1; 0; 1; 0; 0] s Hs)).
Defined.

(** C8. [results] is never cleared. When [runAll] is called again on a
    pool whose first run is over (limit K >= 1, second list not empty, its
    jobs settle), [results] keeps the entries of the first run in front at
    every moment, the second run ends whatever the schedule, and the
    collection its promise is resolved with is the results of the first run
    followed by the values of the jobs fulfilled in the second: more
    entries than the second run produced, as soon as the first produced
    one. *)
Theorem results_kept_across_runs
    (K : Z) (tasks1 tasks2 : list Task) (sched1 sched2 : list nat)
    (s1 s2 : State) :
  (1 <= K)%Z ->
  exec sched1 (runAll tasks1 (new_ThreadPool K)) = Some s1 ->
  chains s1 = [] ->
  tasks2 <> [] ->
  Forall settles tasks2 ->
  exec sched2 (runAll tasks2 s1) = Some s2 ->
  promises s1 = 1 /\
  results s1 `prefix_of` results s2 /\
  length sched2 <= 3 * length tasks2 /\
  (length sched2 < 3 * length tasks2 -> exists s', tick 0 s2 = Some s') /\
  (length sched2 = 3 * length tasks2 ->
     exists new,
       new ≡ₚ flat_map fulfilled_value tasks2 /\
       results s2 = results s1 ++ new /\
       resolved s2 = resolved s1 ++ [(1, results s1 ++ new)] /\
       length (results s1 ++ new) =
         length (results s1) + length (flat_map fulfilled_value tasks2)).
Proof.
  intros HK Hexec1 Hnil Hne Hall Hexec2.
  destruct (Inv_reachable _ _ _ _ (idle_new K) Hexec1) as (n1 & HI1).
  pose proof (idle_final _ _ _ _ HI1 HK Hnil) as Hidle.
  pose proof (inv_promises _ _ _ _ HI1) as Hp. simpl in Hp.
  assert (HK1 : (1 <= maxThreads s1)%Z).
  { rewrite (core_max _ _ _ _ (inv_core _ _ _ _ HI1)). done. }
  destruct (run_total _ _ _ _ Hidle HK1 Hall Hexec2) as (n & HI & Hw & Hprog & Hend).
  split; [done|]. split; [|split; [lia|split; [done|]]].
  - destruct (core_results _ _ _ _ (inv_core _ _ _ _ HI)) as (new & Hres & _).
    rewrite Hres. by apply prefix_app_r.
  - intros Heq.
    destruct (Inv_final _ _ _ _ HI HK1 (Hend Heq))
      as (_ & _ & _ & (new & Hres & Hperm) & _ & Hrsv).
    rewrite bool_decide_eq_false_2 in Hrsv by done.
    exists new. rewrite Hrsv, Hp, Hres, length_app.
    repeat split; try done. f_equal. by apply Permutation_length.
Qed.

Lemma results_kept_across_runs_witness :
  let tasks1 := [mkTask 0 (Fulfilled (JsNumber 10))] in
  let tasks2 := [mkTask 1 (Fulfilled (JsNumber 20))] in
  (1 <= 1)%Z /\ tasks2 <> [] /\ Forall settles tasks2 /\
  exists s1 s2,
    exec [0; 0; 0] (runAll tasks1 (new_ThreadPool 1)) = Some s1 /\
    chains s1 = [] /\
    exec [0; 0; 0] (runAll tasks2 s1) = Some s2 /\
    results s1 `prefix_of` results s2 /\
    exists new, new ≡ₚ flat_map fulfilled_value tasks2 /\
                resolved s2 = resolved s1 ++ [(1, results s1 ++ new)].
Proof.
  intros tasks1 tasks2.
  assert (Hall : Forall settles tasks2) by (repeat constructor; discriminate).
  split; [lia|]. split; [discriminate|]. split; [exact Hall|].
  assert (Hrun : exists s1 s2,
             exec [0; 0; 0] (runAll tasks1 (new_ThreadPool 1)) = Some s1 /\
             chains s1 = [] /\
             exec [0; 0; 0] (runAll tasks2 s1) = Some s2).
  { eexists. eexists. split; [vm_compute; reflexivity|].
    split; vm_compute; reflexivity. }
  destruct Hrun as (s1 & s2 & Hs1 & Hnil & Hs2). exists s1, s2.
  split; [exact Hs1|]. split; [exact Hnil|]. split; [exact Hs2|].
  destruct (results_kept_across_runs 1 tasks1 tasks2 [0; 0; 0] [0; 0; 0] s1 s2
              ltac:(lia) Hs1 Hnil ltac:(discriminate) Hall Hs2)
    as (_ & Hpre & _ & _ & Hend).
  split; [exact Hpre|].
  destruct (Hend eq_refl) as (new & Hperm & _ & Hrsv & _).
  exists new. split; [exact Hperm|exact Hrsv].
Defined.

(** ** The glue *)

(** *** Classification of the tags *)

Lemma classify_tag_to_delete lists tag :
  classify_tag lists tag =
  if to_delete tag
  then {| tagsToDelete := tagsToDelete lists ++ [tag]; tagsToKeep := tagsToKeep lists |}
  else {| tagsToDelete := tagsToDelete lists; tagsToKeep := tagsToKeep lists ++ [tag] |}.
Proof.
  unfold classify_tag, to_delete.
  destruct (_ || _)%bool; by destruct (_ : bool).
Qed.

Lemma classify_fold allTags lists :
  fold_left classify_tag allTags lists =
  {| tagsToDelete := tagsToDelete lists ++ filter (fun t => to_delete t = true) allTags;
     tagsToKeep := tagsToKeep lists ++ filter (fun t => ~ to_delete t = true) allTags |}.
Proof.
  revert lists. induction allTags as [|tag l IH]; intros lists; simpl.
  - rewrite !filter_nil, !app_nil_r. by destruct lists.
  - rewrite IH, classify_tag_to_delete, !filter_cons.
    destruct (to_delete tag) eqn:Hd; repeat case_decide; try done;
      simpl; by rewrite <- app_assoc.
Qed.

Lemma digit_or_dot_spec c :
  digit_or_dot c = true <-> ascii_digit c \/ c = "."%char.
Proof.
  unfold digit_or_dot, ascii_digit. split.
  - intros H. apply orb_true_iff in H as [H|H].
    + apply andb_true_iff in H as [H1 H2].
      apply Nat.leb_le in H1, H2. left. exists (nat_of_ascii c - 48). split; [lia|].
      replace (48 + (nat_of_ascii c - 48)) with (nat_of_ascii c) by lia.
      by rewrite ascii_nat_embedding.
    + apply Nat.eqb_eq in H. right.
      rewrite <- (ascii_nat_embedding c), H. reflexivity.
  - intros [(d & Hd & ->)| ->]; [|reflexivity].
    rewrite nat_ascii_embedding by lia.
    apply orb_true_iff. left. apply andb_true_iff. split; apply Nat.leb_le; lia.
Qed.

Lemma test_not_digit_dot_spec s :
  test_not_digit_dot s = true <->
  exists i c, String.get i s = Some c /\ ~ ascii_digit c /\ c <> "."%char.
Proof.
  induction s as [|a s IH]; simpl.
  - split; [discriminate|]. intros (i & c & H & _). discriminate.
  - rewrite orb_true_iff, IH, negb_true_iff. split.
    + intros [Ha|(i & c & Hg & Hc)].
      * exists 0, a. split; [done|].
        apply not_true_iff_false in Ha. rewrite digit_or_dot_spec in Ha. tauto.
      * exists (S i), c. done.
    + intros ([|i] & c & Hg & Hc1 & Hc2).
      * left. simplify_eq. apply not_true_iff_false. rewrite digit_or_dot_spec. tauto.
      * right. exists i, c. done.
Qed.

Lemma get_substring_from n i s :
  String.get i (substring_from n s) = String.get (n + i) s.
Proof.
  revert s. induction n as [|n IH]; intros s; simpl; [done|].
  destruct s as [|a s]; simpl; [done|]. apply IH.
Qed.

Lemma prefix_empty s : String.prefix EmptyString s = true.
Proof. by destruct s. Qed.

Lemma prefix_String a s tag :
  String.prefix (String a s) tag = true <->
  exists rest, tag = String a rest /\ String.prefix s rest = true.
Proof.
  destruct tag as [|b rest]; cbn [String.prefix].
  - split; [discriminate|]. intros (? & ? & _). discriminate.
  - destruct (ascii_dec a b) as [<-|Hne].
    + split; [eauto|]. intros (r & Heq & H). by simplify_eq.
    + split; [discriminate|]. intros (r & Heq & _). by simplify_eq.
Qed.

Lemma startsWith_v tag :
  startsWith tag "v" = true <-> String.get 0 tag = Some "v"%char.
Proof.
  unfold startsWith. rewrite prefix_String. split.
  - by intros (rest & -> & _).
  - destruct tag as [|a rest]; [discriminate|]. simpl. intros H. simplify_eq.
    exists rest. split; [done|apply prefix_empty].
Qed.

Lemma prefix_cons_v (rest tag : string) :
  String.prefix (String "v" rest) tag = true -> startsWith tag "v" = true.
Proof.
  unfold startsWith. rewrite !prefix_String. intros (r & -> & _).
  exists r. split; [done|apply prefix_empty].
Qed.

Lemma to_delete_spec tag : to_delete tag = true <-> deleted_by_rule tag.
Proof.
  unfold to_delete, deleted_by_rule.
  rewrite <- startsWith_v. unfold startsWith at 1 2 3 4.
  destruct (_ || _)%bool eqn:H3x.
  - rewrite test_not_digit_dot_spec. setoid_rewrite get_substring_from.
    split.
    + intros H. split; [|by right].
      repeat (apply orb_true_iff in H3x as [H3x|H3x]); by eapply prefix_cons_v.
    + intros [_ [(H5 & H6 & H7 & H8)|H]]; [|done].
      by rewrite H5, H6, H7, H8 in H3x.
  - repeat (apply orb_false_iff in H3x as [H3x ?]).
    split; [intros Hv; split; [done|by left]|by intros [? _]].
Qed.

(** C10. [main] puts a tag in [tagsToDelete] exactly when the rule of the
    specification holds of it, and in [tagsToKeep] otherwise; the two lists
    together are the tags, each tag (each occurrence) in one of them and no
    tag in both. Tags that do not start with [v], and [v350.0.0], are
    kept. *)
Theorem classify_by_rule (allTags : list string) :
  (forall tag, tag ∈ tagsToDelete (classify allTags) <->
               tag ∈ allTags /\ deleted_by_rule tag) /\
  (forall tag, tag ∈ tagsToKeep (classify allTags) <->
               tag ∈ allTags /\ ~ deleted_by_rule tag) /\
  tagsToDelete (classify allTags) ++ tagsToKeep (classify allTags) ≡ₚ allTags /\
  (forall tag, ~ (tag ∈ tagsToDelete (classify allTags) /\
                  tag ∈ tagsToKeep (classify allTags))) /\
  (forall tag, String.get 0 tag <> Some "v"%char ->
               tag ∈ allTags -> tag ∈ tagsToKeep (classify allTags)) /\
  classify ["v350.0.0"; "v35.1.0-beta.1"; "v34.0.0"; "main"]%string =
    {| tagsToDelete := ["v35.1.0-beta.1"; "v34.0.0"]%string;
       tagsToKeep := ["v350.0.0"; "main"]%string |}.
Proof.
  unfold classify. rewrite classify_fold. simpl.
  assert (Hdel : forall tag,
             tag ∈ filter (fun t => to_delete t = true) allTags <->
             tag ∈ allTags /\ deleted_by_rule tag).
  { intros tag. rewrite list_elem_of_filter, to_delete_spec. tauto. }
  assert (Hkeep : forall tag,
             tag ∈ filter (fun t => ~ to_delete t = true) allTags <->
             tag ∈ allTags /\ ~ deleted_by_rule tag).
  { intros tag. rewrite list_elem_of_filter, to_delete_spec. tauto. }
  split; [done|]. split; [done|]. split; [apply filter_app_complement|].
  split; [|split].
  - intros tag. rewrite Hdel, Hkeep. tauto.
  - intros tag Hv Hin. apply Hkeep. split; [done|]. by intros [? _].
  - vm_compute. reflexivity.
Qed.

(** *** The deletion jobs *)

Lemma deleteTask_counts exec_ tag t :
  let t' := deleteTask exec_ tag t in
  if remote_not_found (tag, exec_)
  then successTags t' = successTags t /\ failedTags t' = failedTags t /\
       (deletedLocalTags t' = deletedLocalTags t ++ [tag] \/
        deletedLocalTags t' = deletedLocalTags t)
  else length (successTags t') + length (failedTags t') =
         S (length (successTags t) + length (failedTags t)) /\
       deletedLocalTags t' = deletedLocalTags t.
Proof.
  unfold deleteTask, remote_not_found, runGitCommandAsync. simpl.
  destruct (exec_ _) as [out|error].
  - simpl. rewrite length_app. simpl. split; [lia|done].
  - destruct (isTagNotFoundError error).
    + destruct (exec_ _); simpl; auto.
    + simpl. rewrite length_app. simpl. split; [lia|done].
Qed.

Lemma runDeleteTasks_counts finished t :
  let T := fold_left (fun t job => deleteTask (snd job) (fst job) t) finished t in
  length (successTags T) + length (failedTags T)
    + length (filter (fun job => remote_not_found job = true) finished)
  = length (successTags t) + length (failedTags t) + length finished.
Proof.
  revert t. induction finished as [|[tag exec_] l IH]; intros t; simpl; [lia|].
  specialize (IH (deleteTask exec_ tag t)). simpl in IH.
  pose proof (deleteTask_counts exec_ tag t) as Hc. simpl in Hc.
  rewrite filter_cons.
  destruct (remote_not_found (tag, exec_)) eqn:Hnf; case_decide; try done.
  - destruct Hc as (Hs & Hf & _). rewrite Hs, Hf in IH. simpl. lia.
  - destruct Hc as (Hc & _). lia.
Qed.

(** C9. A job whose remote deletion fails with a tag-not-found error
    leaves [successTags] and [failedTags] as they were; its tag goes to
    [deletedLocalTags] or nowhere. Every other job adds one to exactly one
    of the two. So when the jobs made from [tagsToDelete] have finished,
    in whatever order, the two counts add up to the number of tags less the
    number of not-found jobs: never more than the number of tags, and less
    as soon as one job met a tag-not-found error. *)
Theorem not_found_tags_uncounted
    (tags : list string) (finished : list (string * (string -> ExecResult))) :
  map fst finished ≡ₚ tags ->
  let T := runDeleteTasks finished in
  (forall job t,
     remote_not_found job = true ->
     let t' := deleteTask (snd job) (fst job) t in
     successTags t' = successTags t /\ failedTags t' = failedTags t /\
     (deletedLocalTags t' = deletedLocalTags t ++ [fst job] \/
      deletedLocalTags t' = deletedLocalTags t)) /\
  length (successTags T) + length (failedTags T)
    + length (filter (fun job => remote_not_found job = true) finished)
    = length tags /\
  length (successTags T) + length (failedTags T) <= length tags /\
  ((exists job, job ∈ finished /\ remote_not_found job = true) ->
   length (successTags T) + length (failedTags T) < length tags).
Proof.
  intros Hperm T.
  assert (Hlen : length finished = length tags).
  { rewrite <- (Permutation_length Hperm). by rewrite length_map. }
  pose proof (runDeleteTasks_counts finished
                {| successTags := []; failedTags := []; deletedLocalTags := [] |})
    as Hc.
  simpl in Hc. fold (runDeleteTasks finished) in Hc. fold T in Hc.
  split; [|split; [lia|split; [lia|]]].
  - intros [tag exec_] t Hnf. simpl.
    pose proof (deleteTask_counts exec_ tag t) as Ht. simpl in Ht.
    by rewrite Hnf in Ht.
  - intros (job & Hin & Hnf).
    assert (Hf : job ∈ filter (fun job => remote_not_found job = true) finished)
      by (by apply list_elem_of_filter).
    destruct (filter _ finished); [by apply elem_of_nil in Hf|]. simpl in Hc. lia.
Qed.

Lemma not_found_tags_uncounted_witness :
  let gone := mkGitFailure
      (Some "error: unable to delete 'v1.0.0': remote ref does not exist"%string) in
  let exec_ := fun command =>
      if String.eqb command "git push origin --delete v1.0.0"
      then ExecError gone else ExecOk EmptyString in
  let finished := [("v2.0.0"%string, exec_); ("v1.0.0"%string, exec_)] in
  let tags := ["v1.0.0"; "v2.0.0"]%string in
  map fst finished ≡ₚ tags /\
  remote_not_found ("v1.0.0"%string, exec_) = true /\
  successTags (runDeleteTasks finished) = ["v2.0.0"%string] /\
  failedTags (runDeleteTasks finished) = [] /\
  length (successTags (runDeleteTasks finished))
    + length (failedTags (runDeleteTasks finished)) < length tags.
Proof.
  intros gone exec_ finished tags.
  assert (Hperm : map fst finished ≡ₚ tags) by apply Permutation_swap.
  assert (Hnf : remote_not_found ("v1.0.0"%string, exec_) = true)
    by (vm_compute; reflexivity).
  split; [exact Hperm|]. split; [exact Hnf|].
  split; [vm_compute; reflexivity|]. split; [vm_compute; reflexivity|].
  destruct (not_found_tags_uncounted tags finished Hperm) as (_ & _ & _ & Hlt).
  apply Hlt. exists ("v1.0.0"%string, exec_). split; [|exact Hnf].
  apply list_elem_of_further, list_elem_of_here.
Defined.

(** ** More about the runner *)

(** *** What [runAll] starts at once *)

Lemma startThreads_loop_take fuel s :
  length (queue s) <= fuel ->
  let m := Nat.min (Z.to_nat (maxThreads s - running s)) (length (queue s)) in
  let s' := startThreads_loop fuel s in
  calls s' = calls s ++ take m (queue s) /\
  queue s' = drop m (queue s) /\
  chains s' = chains s ++ map (fun t => (t, AwaitThen)) (take m (queue s)) /\
  running s' = (running s + Z.of_nat m)%Z /\
  results s' = results s /\ console s' = console s /\
  resolved s' = resolved s /\ maxThreads s' = maxThreads s.
Proof.
  revert s. induction fuel as [|fuel IH]; intros s Hlen; simpl.
  - destruct (queue s) eqn:Hq; simpl in Hlen; [|lia].
    rewrite Nat.min_0_r. simpl. rewrite !app_nil_r. repeat split; lia.
  - destruct ((running s <? maxThreads s)%Z && (0 <? length (queue s)))%bool eqn:Hc.
    + apply andb_true_iff in Hc as [Hlt Hpos]. apply Z.ltb_lt in Hlt.
      destruct (queue s) as [|t rest] eqn:Hq; [discriminate|].
      rewrite (startThread_cons s t rest Hq).
      match goal with |- context [startThreads_loop fuel ?x] => set (s1 := x) end.
      assert (Hlen1 : length (queue s1) <= fuel) by (simpl in *; lia).
      destruct (IH s1 Hlen1) as (Hc1 & Hq1 & Hch1 & Hr1 & Hres1 & Hcon1 & Hrsv1 & Hmax1).
      simpl in Hc1, Hq1, Hch1, Hr1, Hres1, Hcon1, Hrsv1, Hmax1.
      replace (Z.to_nat (maxThreads s - running s))
        with (S (Z.to_nat (maxThreads s - (running s + 1)))) by lia.
      simpl. rewrite Hc1, Hq1, Hch1, Hr1, <- !app_assoc. simpl.
      repeat split; try done. lia.
    + apply andb_false_iff in Hc as [Hge|Hq].
      * apply Z.ltb_ge in Hge.
        replace (Z.to_nat (maxThreads s - running s)) with 0 by lia.
        simpl. rewrite !app_nil_r. repeat split; lia.
      * destruct (queue s); [|discriminate]. rewrite Nat.min_0_r. simpl.
        rewrite !app_nil_r. repeat split; lia.
Qed.

Lemma runAll_new_state (K : Z) (tasks : list Task) :
  calls (runAll tasks (new_ThreadPool K)) = take (Z.to_nat K) tasks /\
  queue (runAll tasks (new_ThreadPool K)) = drop (Z.to_nat K) tasks /\
  chains (runAll tasks (new_ThreadPool K))
    = map (fun t => (t, AwaitThen)) (take (Z.to_nat K) tasks) /\
  running (runAll tasks (new_ThreadPool K))
    = Z.of_nat (Nat.min (Z.to_nat K) (length tasks)) /\
  results (runAll tasks (new_ThreadPool K)) = [] /\
  console (runAll tasks (new_ThreadPool K)) = [] /\
  resolved (runAll tasks (new_ThreadPool K)) = [].
Proof.
  set (m := Z.to_nat K).
  destruct (startThreads_loop_take (length (queue (push_all tasks (new_ThreadPool K))))
              (push_all tasks (new_ThreadPool K)) (le_n _))
    as (Hc & Hq & Hch & Hr & Hres & Hcon & Hrsv & _).
  simpl in Hc, Hq, Hch, Hr, Hres, Hcon, Hrsv.
  rewrite Z.sub_0_r in *. fold m in Hc, Hq, Hch, Hr.
  assert (Ht : take (Nat.min m (length tasks)) tasks = take m tasks).
  { destruct (Nat.min_spec m (length tasks)) as [[_ ->]|[Hle ->]]; [done|].
    by rewrite firstn_all, take_ge. }
  assert (Hd : drop (Nat.min m (length tasks)) tasks = drop m tasks).
  { destruct (Nat.min_spec m (length tasks)) as [[_ ->]|[Hle ->]]; [done|].
    by rewrite drop_all, drop_ge. }
  rewrite Ht in Hc, Hch. rewrite Hd in Hq.
  unfold runAll, _startThreads. simpl.
  repeat split; done.
Qed.

(** X1. [runAll] on a new pool calls, before it returns, the first
    min(K, N) jobs in order (none when K <= 0, all when K >= N), leaves the
    others queued, counts the started ones in [running], gives each a
    pending chain, and has run no callback: no result, no log line, no
    resolution. *)
Theorem runAll_starts_first_jobs (K : Z) (tasks : list Task) :
  let m := Z.to_nat K in
  let s := runAll tasks (new_ThreadPool K) in
  calls s = take m tasks /\
  queue s = drop m tasks /\
  chains s = map (fun t => (t, AwaitThen)) (take m tasks) /\
  running s = Z.of_nat (Nat.min m (length tasks)) /\
  results s = [] /\ console s = [] /\ resolved s = [].
Proof. exact (runAll_new_state K tasks). Qed.

Lemma exec_stuck sched s :
  (forall i, tick i s = None) ->
  exec sched s = match sched with [] => Some s | _ :: _ => None end.
Proof. intros H. destruct sched as [|i sched]; simpl; [done|]. by rewrite H. Qed.

(** X2. A pool with a limit K <= 0 does nothing: [runAll] calls no job,
    whatever the list, every job stays queued, no callback ever runs and
    the promise is never resolved. *)
Theorem nonpositive_limit_never_runs
    (K : Z) (tasks : list Task) (sched : list nat) :
  (K <= 0)%Z ->
  let s := runAll tasks (new_ThreadPool K) in
  calls s = [] /\ queue s = tasks /\ running s = 0%Z /\ resolved s = [] /\
  exec sched s = match sched with [] => Some s | _ :: _ => None end.
Proof.
  intros HK s.
  destruct (runAll_new_state K tasks) as (Hc & Hq & Hch & Hr & _ & _ & Hrsv).
  subst s. replace (Z.to_nat K) with 0 in * by lia.
  rewrite take_0 in Hc, Hch. rewrite drop_0 in Hq.
  repeat split; try done.
  apply exec_stuck. intros i. unfold tick. by rewrite Hch.
Qed.

Lemma nonpositive_limit_never_runs_witness :
  let tasks := [mkTask 0 (Fulfilled JsUndefined); mkTask 1 (Fulfilled JsUndefined)] in
  (0 <= 0)%Z /\
  calls (runAll tasks (new_ThreadPool 0)) = [] /\
  exec [0] (runAll tasks (new_ThreadPool 0)) = None.
Proof.
  intros tasks. split; [lia|].
  destruct (nonpositive_limit_never_runs 0 tasks [0] ltac:(lia))
    as (Hc & _ & _ & _ & He).
  split; [exact Hc|exact He].
Defined.

(** X3. The runner has no time-out: if the jobs that [runAll] starts at
    once, the first min(K, N), never settle, no callback ever runs, so no
    other job is ever called and the promise is never resolved. *)
Theorem stalled_jobs_block_the_pool
    (K : Z) (tasks : list Task) (sched : list nat) :
  Forall (fun t => task_outcome t = Pending) (take (Z.to_nat K) tasks) ->
  let s := runAll tasks (new_ThreadPool K) in
  calls s = take (Z.to_nat K) tasks /\ resolved s = [] /\
  exec sched s = match sched with [] => Some s | _ :: _ => None end.
Proof.
  intros Hall s.
  destruct (runAll_new_state K tasks) as (Hc & _ & Hch & _ & _ & _ & Hrsv).
  subst s. split; [done|]. split; [done|].
  apply exec_stuck. intros i. unfold tick. rewrite Hch, list_lookup_fmap.
  destruct (take (Z.to_nat K) tasks !! i) as [t|] eqn:Hi; simpl; [|done].
  rewrite Forall_forall in Hall.
  by rewrite (Hall t (list_elem_of_lookup_2 _ _ _ Hi)).
Qed.

Lemma stalled_jobs_block_the_pool_witness :
  let tasks := [mkTask 0 Pending; mkTask 1 (Fulfilled JsUndefined)] in
  Forall (fun t => task_outcome t = Pending) (take (Z.to_nat 1) tasks) /\
  calls (runAll tasks (new_ThreadPool 1)) = [mkTask 0 Pending] /\
  exec [0] (runAll tasks (new_ThreadPool 1)) = None.
Proof.
  intros tasks.
  assert (Hall : Forall (fun t => task_outcome t = Pending) (take (Z.to_nat 1) tasks))
    by (repeat constructor).
  split; [exact Hall|].
  destruct (stalled_jobs_block_the_pool 1 tasks [0] Hall) as (Hc & _ & He).
  split; [exact Hc|exact He].
Defined.

(** X4. While jobs wait in the queue the pool is full: under a limit
    K >= 1, in every state reached with a non-empty queue, exactly K jobs
    are running. *)
Theorem pool_full_while_jobs_wait
    (K : Z) (tasks : list Task) (sched : list nat) (s : State) :
  (1 <= K)%Z ->
  exec sched (runAll tasks (new_ThreadPool K)) = Some s ->
  queue s <> [] ->
  running s = K /\ length (chains s) = Z.to_nat K.
Proof.
  intros HK Hexec Hq.
  destruct (Inv_reachable _ _ _ _ (idle_new K) Hexec) as (n & [HC Hsat _ _ _]).
  pose proof (core_bound _ _ _ _ HC) as Hb.
  pose proof (core_running _ _ _ _ HC) as Hr.
  specialize (Hsat Hq). simpl in *. lia.
Qed.

Lemma pool_full_while_jobs_wait_witness :
  let tasks := [mkTask 0 (Fulfilled JsUndefined);
                mkTask 1 (Rejected (JsString "boom"));
                mkTask 2 (Fulfilled (JsNumber 2));
                mkTask 3 (Fulfilled (JsNumber 3))] in
  (1 <= 2)%Z /\
  exists s,
    exec [1; 0; 1; 0; 0] (runAll tasks (new_ThreadPool 2)) = Some s /\
    queue s <> [] /\ running s = 2%Z.
Proof.
  intros tasks. split; [lia|].
  assert (Hrun : exists s,
             exec [1; 0; 1; 0; 0] (runAll tasks (new_ThreadPool 2)) = Some s /\
             queue s <> [])
    by (eexists; split; [vm_compute; reflexivity|discriminate]).
  destruct Hrun as (s & Hs & Hq). exists s. split; [exact Hs|]. split; [exact Hq|].
  exact (proj1 (pool_full_while_jobs_wait 2 tasks [1; 0; 1; 0; 0] s ltac:(lia) Hs Hq)).
Defined.

(** *** Calls of [runAll] that overlap *)

Lemma finallyCallback_notifies s :
  _onComplete (finallyCallback s) = _onComplete s /\
  results (finallyCallback s) = results s /\
  (resolved (finallyCallback s) = resolved s \/
   exists p, _onComplete s = Some p /\
             resolved (finallyCallback s) = resolved s ++ [(p, results s)]).
Proof.
  unfold finallyCallback. cbv zeta.
  set (s2 := if 0 <? length (queue (decr_running s))
             then _startThread (decr_running s) else decr_running s).
  assert (H2 : _onComplete s2 = _onComplete s /\ results s2 = results s /\
               resolved s2 = resolved s).
  { unfold s2. destruct (0 <? _); [|done].
    unfold _startThread. by destruct (queue (decr_running s)). }
  destruct H2 as (Ho & Hr & Hv).
  destruct (_ && _)%bool; [|rewrite Ho, Hr, Hv; auto].
  unfold notify. destruct (_onComplete s2) as [p|] eqn:Hp; simpl;
    rewrite ?Hr, ?Hv; rewrite <- Ho; [|by auto].
  split; [done|]. split; [done|]. right. by exists p.
Qed.

Lemma tick_notifies i s s' :
  tick i s = Some s' ->
  _onComplete s' = _onComplete s /\
  (resolved s' = resolved s \/
   exists p vs, _onComplete s = Some p /\ resolved s' = resolved s ++ [(p, vs)]).
Proof.
  intros Htick.
  destruct (tick_cases _ _ _ Htick) as (t & ph & l1 & l2 & _ & _ & Hs').
  destruct ph.
  - destruct Hs' as [(v & _ & ->)|(e & _ & ->)]; simpl; auto.
  - destruct Hs' as [(e & _ & ->)|(_ & ->)]; simpl; auto.
  - subst s'.
    destruct (finallyCallback_notifies (set_chains (l1 ++ l2) s))
      as (Ho & _ & [Hr|(p & Hp & Hr)]); simpl in *; [auto|].
    split; [done|]. right. eauto.
Qed.

Lemma exec_notifies sched s s' p :
  _onComplete s = Some p ->
  exec sched s = Some s' ->
  exists new, resolved s' = resolved s ++ new /\ Forall (fun e => fst e = p) new.
Proof.
  revert s. induction sched as [|i sched IH]; intros s Hp H; simpl in H.
  - simplify_eq. exists []. by rewrite app_nil_r.
  - destruct (tick i s) as [s1|] eqn:Ht; [|discriminate].
    destruct (tick_notifies _ _ _ Ht) as (Ho & Hr).
    destruct (IH s1 ltac:(congruence) H) as (new & Hnew & Hall).
    destruct Hr as [Hr|(q & vs & Hq & Hr)]; rewrite Hr in Hnew.
    + by exists new.
    + exists ((q, vs) :: new). rewrite <- app_assoc in Hnew. split; [done|].
      constructor; [simpl; congruence|done].
Qed.

(** X5. Only the promise of the latest [runAll] is ever resolved. When
    [runAll] is called on a pool in any state, also in the middle of a run,
    [_onComplete] is overwritten: from then on every call of a [resolve] is
    a call of the new promise's, so a promise of an earlier [runAll] that
    was still pending stays pending for ever. *)
Theorem only_latest_promise_resolved
    (s0 : State) (tasks : list Task) (sched : list nat) (s : State) :
  exec sched (runAll tasks s0) = Some s ->
  (exists new, resolved s = resolved s0 ++ new /\
               Forall (fun e => fst e = promises s0) new) /\
  (forall p vs, p <> promises s0 ->
                (p, vs) ∈ resolved s -> (p, vs) ∈ resolved s0).
Proof.
  intros Hexec.
  assert (Hr0 : resolved (runAll tasks s0) = resolved s0).
  { destruct (startThreads_loop_take (length (queue (push_all tasks s0)))
                (push_all tasks s0) (le_n _)) as (_ & _ & _ & _ & _ & _ & Hr & _).
    exact Hr. }
  destruct (exec_notifies sched (runAll tasks s0) s (promises s0) eq_refl Hexec)
    as (new & Hnew & Hall).
  rewrite Hr0 in Hnew.
  split; [by exists new|].
  intros p vs Hp Hin. rewrite Hnew in Hin.
  apply elem_of_app in Hin as [Hin|Hin]; [done|].
  rewrite Forall_forall in Hall. specialize (Hall _ Hin). simpl in Hall. done.
Qed.

Lemma only_latest_promise_resolved_witness :
  let a := mkTask 0 (Fulfilled (JsNumber 10)) in
  let b := mkTask 1 (Fulfilled (JsNumber 20)) in
  let s0 := runAll [a] (new_ThreadPool 1) in
  exists s,
    exec [0; 0; 0; 0; 0; 0] (runAll [b] s0) = Some s /\
    chains s = [] /\ queue s = [] /\
    forall vs, (0, vs) ∉ resolved s.
Proof.
  intros a b s0.
  assert (Hrun : exists s,
             exec [0; 0; 0; 0; 0; 0] (runAll [b] s0) = Some s /\
             chains s = [] /\ queue s = []).
  { eexists. split; [vm_compute; reflexivity|]. split; reflexivity. }
  destruct Hrun as (s & Hs & Hc & Hq). exists s.
  split; [exact Hs|]. split; [exact Hc|]. split; [exact Hq|].
  intros vs Hin.
  destruct (only_latest_promise_resolved s0 [b] [0; 0; 0; 0; 0; 0] s Hs) as (_ & Hold).
  specialize (Hold 0 vs ltac:(discriminate) Hin).
  exact (proj1 (elem_of_nil _) Hold).
Defined.

(** *** A pool of one thread *)

Lemma finallyCallback_chains s :
  chains (finallyCallback s) =
  chains (if 0 <? length (queue s) then _startThread (decr_running s)
          else decr_running s).
Proof.
  unfold finallyCallback. simpl. destruct (_ && _)%bool; [|done].
  unfold notify. by destruct (_onComplete _).
Qed.

Lemma awaiting_then_started (l : list Task) :
  awaiting_then (map (fun t => (t, AwaitThen)) l) = l.
Proof. induction l as [|t l IH]; simpl; [done|]. by rewrite IH. Qed.

Lemma runAll_idle_state base tasks :
  idle base ->
  exists m,
    calls (runAll tasks base) = calls base ++ take m tasks /\
    chains (runAll tasks base) = map (fun t => (t, AwaitThen)) (take m tasks) /\
    results (runAll tasks base) = results base.
Proof.
  intros (Hr0 & Hq0 & Hc0).
  destruct (startThreads_loop_take (length (queue (push_all tasks base)))
              (push_all tasks base) (le_n _)) as (Hc & _ & Hch & _ & Hres & _).
  fold (_startThreads (push_all tasks base)) in Hc, Hch, Hres.
  change (calls (runAll tasks base) = calls base ++ take
            (Nat.min (Z.to_nat (maxThreads base - running base)) (length (queue base ++ tasks)))
            (queue base ++ tasks)) in Hc.
  change (chains (runAll tasks base) = chains base ++ map (fun t => (t, AwaitThen)) (take
            (Nat.min (Z.to_nat (maxThreads base - running base)) (length (queue base ++ tasks)))
            (queue base ++ tasks))) in Hch.
  change (results (runAll tasks base) = results base) in Hres.
  rewrite Hq0 in Hc, Hch. rewrite Hc0 in Hch. simpl in Hc, Hch. eauto.
Qed.

Lemma in_order_runAll base tasks :
  idle base -> exists n, in_order base tasks (runAll tasks base) n.
Proof.
  intros Hidle. destruct (Inv_runAll base tasks Hidle) as (n & HI).
  exists n. split; [done|]. exists [].
  destruct (runAll_idle_state base tasks Hidle) as (m & Hc & Hch & Hres).
  pose proof (core_calls _ _ _ _ (inv_core _ _ _ _ HI)) as Hcalls.
  rewrite Hc in Hcalls. apply app_inv_head in Hcalls.
  split; [by rewrite Hres, app_nil_r|].
  rewrite Hch, <- Hcalls. simpl.
  by rewrite awaiting_then_started.
Qed.

Lemma in_order_tick base tasks s n i s' :
  maxThreads base = 1%Z ->
  in_order base tasks s n ->
  tick i s = Some s' ->
  exists n', in_order base tasks s' n'.
Proof.
  intros HK [HI (new & Hres & Hord)] Htick.
  destruct (Inv_tick _ _ _ _ _ _ HI Htick) as (n' & Hle & HI').
  exists n'. split; [done|].
  pose proof (inv_core _ _ _ _ HI) as HC. pose proof (inv_core _ _ _ _ HI') as HC'.
  assert (Hone : length (chains s) <= 1).
  { pose proof (core_bound _ _ _ _ HC). pose proof (core_running _ _ _ _ HC). lia. }
  assert (Hn' : length (calls s') = length (calls s) -> n' = n).
  { rewrite (core_calls _ _ _ _ HC), (core_calls _ _ _ _ HC'), !length_app, !length_take.
    pose proof (core_n _ _ _ _ HC). pose proof (core_n _ _ _ _ HC'). lia. }
  destruct (tick_cases _ _ _ Htick) as (t & ph & l1 & l2 & Hl & _ & Hs').
  rewrite Hl in Hone, Hord. rewrite length_app in Hone. simpl in Hone.
  destruct l1; [|simpl in Hone; lia]. destruct l2; [|simpl in Hone; lia].
  simpl in Hs', Hord. clear Hone.
  destruct ph; simpl in Hord.
  - destruct Hs' as [(v & Ho & ->)|(e & Ho & ->)]; simpl in *;
      rewrite (Hn' eq_refl); unfold fulfilled_value in Hord; rewrite Ho in Hord;
      simpl in Hord.
    + exists (new ++ [v]). by rewrite Hres, app_assoc, app_nil_r.
    + exists new. done.
  - destruct Hs' as [(e & Ho & ->)|(Ho & ->)]; simpl in *;
      rewrite (Hn' eq_refl); by exists new.
  - subst s'. exists new.
    destruct (finallyCallback_notifies (set_chains [] s)) as (_ & Hr & _).
    rewrite Hr, finallyCallback_chains. simpl. split; [done|].
    rewrite app_nil_r in Hord.
    destruct (finallyCallback_fields (set_chains [] s)) as (Hc & _ & _).
    simpl in Hc.
    destruct (queue s) as [|t' rest] eqn:Hq; simpl in *.
    + rewrite (Hn' ltac:(by rewrite Hc)). by rewrite app_nil_r.
    + rewrite (startThread_cons (decr_running (set_chains [] s)) t' rest Hq) in *.
      simpl in *.
      pose proof (core_queue _ _ _ _ HC) as Hqn. rewrite Hq in Hqn. symmetry in Hqn.
      destruct (queue_head _ _ _ _ Hqn) as (Hlt & _ & Htake & _).
      assert (n' = S n).
      { pose proof (core_calls _ _ _ _ HC) as H1. pose proof (core_calls _ _ _ _ HC') as H2.
        rewrite Hc in H2. apply (f_equal length) in H1, H2.
        rewrite !length_app, !length_take in *. simpl in H2.
        pose proof (core_n _ _ _ _ HC'). lia. }
      subst n'. rewrite Htake, flat_map_app. simpl. by rewrite Hord, !app_nil_r.
Qed.

Lemma in_order_exec base tasks sched s n s' :
  maxThreads base = 1%Z ->
  in_order base tasks s n ->
  exec sched s = Some s' ->
  exists n', in_order base tasks s' n'.
Proof.
  intros HK. revert s n. induction sched as [|i sched IH]; intros s n HI H; simpl in H.
  - simplify_eq. by exists n.
  - destruct (tick i s) as [s1|] eqn:Ht; [|discriminate].
    destruct (in_order_tick _ _ _ _ _ _ HK HI Ht) as (n1 & HI1). by eapply IH.
Qed.

(** X6. A pool of one thread keeps the order of submission: at every
    moment [results] is a prefix of the values of the fulfilled jobs taken
    in the order of the submitted list, and when the jobs settle and the
    run is over it is exactly that list. *)
Theorem single_thread_results_in_order
    (tasks : list Task) (sched : list nat) (s : State) :
  exec sched (runAll tasks (new_ThreadPool 1)) = Some s ->
  results s `prefix_of` flat_map fulfilled_value tasks /\
  (Forall settles tasks -> length sched = 3 * length tasks ->
   results s = flat_map fulfilled_value tasks).
Proof.
  intros Hexec.
  destruct (in_order_runAll (new_ThreadPool 1) tasks (idle_new 1)) as (n0 & H0).
  destruct (in_order_exec (new_ThreadPool 1) tasks sched _ n0 s eq_refl H0 Hexec)
    as (n & HI & new & Hres & Hord).
  simpl in Hres. subst new. split.
  - rewrite <- (take_drop n tasks), flat_map_app, <- Hord, <- app_assoc.
    by apply prefix_app_r.
  - intros Hall Hlen.
    destruct (run_total _ _ _ _ (idle_new 1) ltac:(simpl; lia) Hall Hexec)
      as (n1 & HI1 & _ & _ & Hend).
    specialize (Hend Hlen).
    destruct (Inv_final _ _ _ _ HI ltac:(simpl; lia) Hend) as (Hq & _).
    rewrite Hend in Hord. simpl in Hord. rewrite app_nil_r in Hord.
    pose proof (core_queue _ _ _ _ (inv_core _ _ _ _ HI)) as Hqn. rewrite Hq in Hqn.
    symmetry in Hqn. apply drop_nil_inv in Hqn.
    by rewrite Hord, take_ge.
Qed.

Lemma single_thread_results_in_order_witness :
  let tasks := [mkTask 0 (Fulfilled (JsNumber 1));
                mkTask 1 (Rejected (JsString "boom"));
                mkTask 2 (Fulfilled (JsNumber 3))] in
  Forall settles tasks /\
  exists s,
    exec [0; 0; 0; 0; 0; 0; 0; 0; 0] (runAll tasks (new_ThreadPool 1)) = Some s /\
    results s = [JsNumber 1; JsNumber 3].
Proof.
  intros tasks.
  assert (Hall : Forall settles tasks) by (repeat constructor; discriminate).
  split; [exact Hall|].
  assert (Hrun : exists s,
             exec [0; 0; 0; 0; 0; 0; 0; 0; 0] (runAll tasks (new_ThreadPool 1)) = Some s)
    by (eexists; vm_compute; reflexivity).
  destruct Hrun as (s & Hs). exists s. split; [exact Hs|].
  exact (proj2 (single_thread_results_in_order tasks _ s Hs) Hall eq_refl).
Defined.

(** ** More about the glue *)

(** *** Recognising a missing tag *)

Lemma prefix_occurs needle hay :
  String.prefix needle hay = true <-> exists after, hay = (needle ++ after)%string.
Proof.
  revert hay. induction needle as [|a needle IH]; intros hay.
  - rewrite prefix_empty. split; [intros _; by exists hay|done].
  - rewrite prefix_String. split.
    + intros (rest & -> & H). apply IH in H as (after & ->). by exists after.
    + intros (after & ->). exists (needle ++ after)%string. split; [done|].
      apply IH. by exists after.
Qed.

Lemma includes_occurs hay needle :
  includes hay needle = true <-> occurs_in needle hay.
Proof.
  unfold occurs_in. induction hay as [|c hay IH].
  - cbn [includes]. rewrite orb_false_r, prefix_occurs. split.
    + intros (after & H). by exists EmptyString, after.
    + intros ([|? ?] & after & H); [by exists after|discriminate].
  - cbn [includes]. rewrite orb_true_iff, prefix_occurs, IH. split.
    + intros [(after & H)|(before & after & H)].
      * by exists EmptyString, after.
      * exists (String c before), after. simpl. by rewrite H.
    + intros ([|c' before] & after & H).
      * left. by exists after.
      * right. simpl in H. injection H as _ H. by exists before, after.
Qed.

(** X7. [isTagNotFoundError] answers true exactly when the error has an
    error text in which one of the three phrases occurs; an error without
    [stderr], or with an empty one, is not a missing tag. *)
Theorem isTagNotFoundError_iff (error : GitFailure) :
  (isTagNotFoundError error = true <->
   exists text, stderr error = Some text /\
     (occurs_in "remote ref does not exist" text \/
      occurs_in "remote ref is at" text \/
      occurs_in "tag does not exist" text)) /\
  isTagNotFoundError (mkGitFailure None) = false /\
  isTagNotFoundError (mkGitFailure (Some EmptyString)) = false.
Proof.
  split; [|split; reflexivity].
  unfold isTagNotFoundError. destruct (stderr error) as [text|].
  - rewrite !orb_true_iff, !includes_occurs. split.
    + intros H. exists text. split; [done|tauto].
    + intros (text' & Heq & H). simplify_eq. tauto.
  - split; [discriminate|]. by intros (text & ? & _).
Qed.

(** *** Reading the output of [git tag] *)

Lemma trimEnd_app_blank a b :
  trimEnd b = EmptyString -> trimEnd (a ++ b) = trimEnd a.
Proof. intros Hb. induction a as [|c a IH]; simpl; [done|]. by rewrite IH. Qed.

Lemma trimEnd_app_kept a b :
  trimEnd b <> EmptyString -> trimEnd (a ++ b) = (a ++ trimEnd b)%string.
Proof.
  intros Hb. induction a as [|c a IH]; simpl; [done|]. rewrite IH.
  destruct (a ++ trimEnd b)%string eqn:Hab; [|done].
  destruct a; simpl in Hab; [done|discriminate].
Qed.

Lemma trimEnd_clean s :
  Forall (fun c => white_space c = false) (list_ascii_of_string s) ->
  trimEnd s = s.
Proof.
  induction s as [|c s IH]; simpl; [done|]. intros H.
  apply Forall_cons in H as [Hc Hs]. rewrite (IH Hs), Hc. by destruct s.
Qed.

Lemma trimStart_clean s :
  Forall (fun c => white_space c = false) (list_ascii_of_string s) ->
  trimStart s = s.
Proof.
  destruct s as [|c s]; simpl; [done|]. intros H.
  apply Forall_cons in H as [Hc _]. by rewrite Hc.
Qed.

Lemma trim_clean tag : clean_tag tag -> trim tag = tag /\ not_blank tag = true.
Proof.
  intros [Hne Hall]. unfold not_blank, trim.
  rewrite (trimStart_clean _ Hall), (trimEnd_clean _ Hall). split; [done|].
  apply negb_true_iff, String.eqb_neq. done.
Qed.

Lemma concat_clean tags :
  tags <> [] -> Forall clean_tag tags ->
  let joined := String.concat (String newline EmptyString) tags in
  joined <> EmptyString /\ trimEnd joined = joined /\
  exists c rest, joined = String c rest /\ white_space c = false.
Proof.
  induction tags as [|t tags IH]; [done|]. intros _ Hall.
  apply Forall_cons in Hall as [[Hne Ht] Hall].
  assert (Hhead : forall more, exists c rest,
             (t ++ more)%string = String c rest /\ white_space c = false).
  { intros more. destruct t as [|c t]; [done|]. simpl in *.
    apply Forall_cons in Ht as [Hc _]. by exists c, (t ++ more)%string. }
  destruct tags as [|t' tags'].
  - simpl. split; [done|]. split; [by apply trimEnd_clean|].
    destruct (Hhead EmptyString) as (c & rest & Heq & Hc).
    exists c, rest. split; [|done]. rewrite <- Heq. clear. induction t; simpl; congruence.
  - destruct (IH ltac:(done) Hall) as (Hj & Hend & _).
    change (String.concat (String newline EmptyString) (t :: t' :: tags'))
      with (t ++ String newline (String.concat (String newline EmptyString) (t' :: tags')))%string.
    set (joined' := String.concat (String newline EmptyString) (t' :: tags')) in *.
    cbv zeta. split; [by destruct t|]. split; [|apply Hhead].
    assert (Hnl : trimEnd (String newline joined') = String newline joined').
    { simpl. rewrite Hend. by destruct joined'. }
    rewrite trimEnd_app_kept; rewrite Hnl; done.
Qed.

Lemma trim_one_per_line tags :
  Forall clean_tag tags ->
  trim (one_per_line tags) = String.concat (String newline EmptyString) tags.
Proof.
  intros Hall. unfold one_per_line, trim. destruct (decide (tags = [])) as [->|Hne].
  { reflexivity. }
  destruct (concat_clean tags Hne Hall) as (_ & Hend & c & rest & Heq & Hc).
  rewrite Heq. simpl. rewrite Hc. change (String c (rest ++ ?x)) with (String c rest ++ x)%string.
  rewrite <- Heq, trimEnd_app_blank; [done|reflexivity].
Qed.

Lemma split_newline_line t rest :
  newline ∉ list_ascii_of_string t ->
  split_newline (t ++ String newline rest) = t :: split_newline rest.
Proof.
  induction t as [|c t IH]; simpl; intros Hnl.
  - done.
  - apply not_elem_of_cons in Hnl as [Hc Ht].
    destruct (Ascii.eqb_spec c newline) as [->|_]; [done|]. by rewrite (IH Ht).
Qed.

Lemma split_newline_last t :
  newline ∉ list_ascii_of_string t -> split_newline t = [t].
Proof.
  induction t as [|c t IH]; simpl; intros Hnl; [done|].
  apply not_elem_of_cons in Hnl as [Hc Ht].
  destruct (Ascii.eqb_spec c newline) as [->|_]; [done|]. by rewrite (IH Ht).
Qed.

Lemma clean_no_newline tag : clean_tag tag -> newline ∉ list_ascii_of_string tag.
Proof.
  intros [_ Hall] Hin. rewrite Forall_forall in Hall. by specialize (Hall _ Hin).
Qed.

Lemma split_newline_concat tags :
  tags <> [] -> Forall clean_tag tags ->
  split_newline (String.concat (String newline EmptyString) tags) = tags.
Proof.
  induction tags as [|t tags IH]; [done|]. intros _ Hall.
  apply Forall_cons in Hall as [Ht Hall].
  destruct tags as [|t' tags'].
  - simpl. by apply split_newline_last, clean_no_newline.
  - change (String.concat (String newline EmptyString) (t :: t' :: tags'))
      with (t ++ String newline (String.concat (String newline EmptyString) (t' :: tags')))%string.
    rewrite split_newline_line by by apply clean_no_newline.
    by rewrite IH.
Qed.

Lemma split_newline_pieces s piece :
  piece ∈ split_newline s -> newline ∉ list_ascii_of_string piece.
Proof.
  revert piece. induction s as [|c s IH]; simpl; intros piece Hin.
  - apply list_elem_of_singleton in Hin as ->. simpl. apply not_elem_of_nil.
  - destruct (Ascii.eqb_spec c newline) as [->|Hc].
    + apply elem_of_cons in Hin as [->|Hin]; [apply not_elem_of_nil|by apply IH].
    + destruct (split_newline s) as [|first others] eqn:Hs.
      * apply list_elem_of_singleton in Hin as ->. simpl.
        apply not_elem_of_cons. split; [done|apply not_elem_of_nil].
      * apply elem_of_cons in Hin as [->|Hin].
        -- simpl. apply not_elem_of_cons. split; [done|]. apply IH. by left.
        -- apply IH. by right.
Qed.

(** X8. Reading the tags recovers what git printed: for names that are
    not empty and hold no white space, the output with one name per line,
    trimmed by [runGitCommand] and then split and filtered by [main], gives
    back exactly the names, in order. Whatever the output, no tag read
    holds a line feed and none is blank. *)
Theorem tags_read_back (tags : list string) (tagsOutput : string) :
  (Forall clean_tag tags -> allTags_of (trim (one_per_line tags)) = tags) /\
  (forall tag, tag ∈ allTags_of tagsOutput ->
     (newline ∉ list_ascii_of_string tag) /\ trim tag <> EmptyString /\
     tag <> EmptyString).
Proof.
  split.
  - intros Hall. rewrite (trim_one_per_line _ Hall). unfold allTags_of.
    destruct (decide (tags = [])) as [->|Hne]; [reflexivity|].
    rewrite (split_newline_concat _ Hne Hall).
    clear Hne. induction Hall as [|t tags Ht _ IH]; simpl; [done|].
    by rewrite (proj2 (trim_clean _ Ht)), IH.
  - intros tag Hin. unfold allTags_of in Hin.
    apply list_elem_of_In in Hin. apply filter_In in Hin as [Hin Hnb].
    apply list_elem_of_In in Hin.
    split; [by eapply split_newline_pieces|].
    unfold not_blank in Hnb. apply negb_true_iff, String.eqb_neq in Hnb.
    split; [done|]. by intros ->.
Qed.

Lemma tags_read_back_witness :
  let tags := ["v1.0.0"; "v35.0.0"; "v36.1.0-beta.1"]%string in
  Forall clean_tag tags /\
  allTags_of (trim (one_per_line tags)) = tags.
Proof.
  intros tags.
  assert (Hall : Forall clean_tag tags).
  { repeat constructor; try discriminate; reflexivity. }
  split; [exact Hall|].
  exact (proj1 (tags_read_back tags EmptyString) Hall).
Defined.

(** *** The decisions of [main] *)

Lemma lower_unit_y c :
  lower_unit c = "y"%char <-> c = "y"%char \/ c = "Y"%char.
Proof.
  destruct c as [[] [] [] [] [] [] [] []]; vm_compute;
    (split; [intros H; first [discriminate H | by left | by right]
            |intros [H|H]; first [discriminate H | reflexivity]]).
Qed.

Lemma toLowerCase_y answer :
  String.eqb (toLowerCase answer) "y" = true <->
  answer = "y"%string \/ answer = "Y"%string.
Proof.
  rewrite String.eqb_eq. destruct answer as [|c [|c' rest]]; simpl.
  - split; [discriminate|]. by intros [|].
  - split.
    + intros H. injection H as H. apply lower_unit_y in H as [->| ->]; auto.
    + intros [H|H]; injection H as ->; reflexivity.
  - split; [discriminate|]. by intros [|].
Qed.

(** X9. [main] goes on to delete tags exactly when the fetch and the
    listing succeeded, the listing has a tag to delete, and the user
    answered [y] or [Y]; the tags it then works on are the classification
    of the tags read from the trimmed listing. It exits with status 1
    exactly when one of the two git commands failed. With any other answer
    nothing is deleted. *)
Theorem main_deletes_iff
    (exec_ execSync_ : string -> ExecResult) (answer : string) (lists : TagLists) :
  (main exec_ execSync_ answer = DeleteTags lists <->
   (exists out, exec_ "git fetch --prune --tags"%string = ExecOk out) /\
   (exists out, execSync_ "git tag"%string = ExecOk out /\
                lists = classify (allTags_of (trim out))) /\
   tagsToDelete lists <> [] /\
   (answer = "y"%string \/ answer = "Y"%string)) /\
  (main exec_ execSync_ answer = Exit1 <->
   (exists e, exec_ "git fetch --prune --tags"%string = ExecError e) \/
   (exists e, execSync_ "git tag"%string = ExecError e)).
Proof.
  unfold main, syncRemoteTags, runGitCommand, runGitCommandAsync.
  destruct (exec_ _) as [out1|e1]; simpl.
  2: { split; split; try discriminate; eauto.
       intros ((? & ?) & _). discriminate. }
  destruct (execSync_ _) as [out2|e2]; simpl.
  2: { split; split; try discriminate; eauto.
       intros (_ & (? & ? & _) & _). discriminate. }
  set (allTags := allTags_of (trim out2)).
  split.
  - destruct (length allTags =? 0) eqn:Hn.
    { split; [discriminate|]. intros (_ & (out & Heq & ->) & Hne & _).
      simplify_eq. fold allTags in Hne. apply Nat.eqb_eq in Hn.
      destruct allTags; [done|discriminate]. }
    destruct (length (tagsToDelete (classify allTags)) =? 0) eqn:Hd.
    { split; [discriminate|]. intros (_ & (out & Heq & ->) & Hne & _).
      simplify_eq. fold allTags in Hne. apply Nat.eqb_eq in Hd.
      destruct (tagsToDelete (classify allTags)); [done|discriminate]. }
    destruct (String.eqb (toLowerCase answer) "y") eqn:Ha; simpl.
    + apply toLowerCase_y in Ha. split.
      * intros H. simplify_eq. split; [eauto|]. split; [eauto|]. split; [|done].
        intros Hnil. by rewrite Hnil in Hd.
      * intros (_ & (out & Heq & ->) & _). by simplify_eq.
    + split; [discriminate|]. intros (_ & _ & _ & Hy).
      apply toLowerCase_y in Hy. congruence.
  - split.
    + destruct (_ =? _); [discriminate|]. destruct (_ =? _); [discriminate|].
      destruct (negb _); discriminate.
    + intros [(e & ?)|(e & ?)]; discriminate.
Qed.




(** *** More about the classification *)

Lemma filter_none {A} (P Q : A -> Prop) `{!forall x, Decision (P x)}
    `{!forall x, Decision (Q x)} (l : list A) :
  (forall x, Q x -> ~ P x) -> filter P (filter Q l) = [].
Proof.
  intros HPQ. induction l as [|x l IH]; [done|].
  rewrite filter_cons. destruct (decide (Q x)) as [Hq|_]; [|done].
  rewrite filter_cons, decide_False by auto. done.
Qed.

Lemma filter_all {A} (P Q : A -> Prop) `{!forall x, Decision (P x)}
    `{!forall x, Decision (Q x)} (l : list A) :
  (forall x, Q x -> P x) -> filter P (filter Q l) = filter Q l.
Proof.
  intros HPQ. induction l as [|x l IH]; [done|].
  rewrite filter_cons. destruct (decide (Q x)) as [Hq|_]; [|done].
  rewrite filter_cons, decide_True by auto. by rewrite IH.
Qed.

Lemma classify_filters allTags :
  classify allTags =
  {| tagsToDelete := filter (fun t => to_delete t = true) allTags;
     tagsToKeep := filter (fun t => ~ to_delete t = true) allTags |}.
Proof. unfold classify. by rewrite classify_fold. Qed.

(** X11. Cleaning is done in one pass: classifying again the tags that
    were kept finds nothing to delete and keeps them all, and classifying
    again the tags that were to be deleted selects every one of them. *)
Theorem classify_again (allTags : list string) :
  classify (tagsToKeep (classify allTags)) =
    {| tagsToDelete := []; tagsToKeep := tagsToKeep (classify allTags) |} /\
  classify (tagsToDelete (classify allTags)) =
    {| tagsToDelete := tagsToDelete (classify allTags); tagsToKeep := [] |}.
Proof.
  rewrite (classify_filters allTags). simpl. rewrite !classify_filters.
  split; f_equal;
    first [apply filter_none; tauto | apply filter_all; tauto].
Qed.

(** X12. The classification keeps the order of the listing, loses and
    invents nothing, and works tag by tag: both lists are sublists of the
    tags read, their lengths (the counts that [main] prints) add up to the
    number of tags, and classifying two listings put end to end gives the
    two classifications put end to end. *)
Theorem classify_order_and_counts (allTags moreTags : list string) :
  tagsToDelete (classify allTags) `sublist_of` allTags /\
  tagsToKeep (classify allTags) `sublist_of` allTags /\
  length (tagsToDelete (classify allTags)) + length (tagsToKeep (classify allTags))
    = length allTags /\
  classify (allTags ++ moreTags) =
    {| tagsToDelete := tagsToDelete (classify allTags) ++ tagsToDelete (classify moreTags);
       tagsToKeep := tagsToKeep (classify allTags) ++ tagsToKeep (classify moreTags) |}.
Proof.
  rewrite !classify_filters. simpl.
  split; [apply sublist_filter|]. split; [apply sublist_filter|]. split.
  - rewrite <- length_app. apply Permutation_length, filter_app_complement.
  - by rewrite !filter_app.
Qed.

(** *** More about the deletion jobs *)

Lemma deleteTask_records exec_ tag t :
  let job := (tag, exec_) in
  let t' := deleteTask exec_ tag t in
  successTags t' = successTags t ++ (if push_ok job then [tag] else []) /\
  failedTags t' = failedTags t ++ (match push_failure job with Some f => [f] | None => [] end) /\
  deletedLocalTags t' = deletedLocalTags t ++ (if local_deleted job then [tag] else []).
Proof.
  unfold deleteTask, push_ok, push_failure, local_deleted, remote_not_found,
    runGitCommandAsync. simpl.
  destruct (exec_ _) as [out|error]; simpl.
  - by rewrite !app_nil_r.
  - destruct (isTagNotFoundError error); simpl.
    + destruct (exec_ _); simpl; by rewrite !app_nil_r.
    + by rewrite !app_nil_r.
Qed.

Lemma runDeleteTasks_records finished t :
  let T := fold_left (fun t job => deleteTask (snd job) (fst job) t) finished t in
  successTags T = successTags t ++ map fst (List.filter push_ok finished) /\
  failedTags T = failedTags t ++ omap push_failure finished /\
  deletedLocalTags T = deletedLocalTags t ++ map fst (List.filter local_deleted finished).
Proof.
  revert t. induction finished as [|[tag exec_] l IH]; intros t; simpl.
  - by rewrite !app_nil_r.
  - destruct (IH (deleteTask exec_ tag t)) as (Hs & Hf & Hd). simpl in Hs, Hf, Hd.
    destruct (deleteTask_records exec_ tag t) as (Hs1 & Hf1 & Hd1). simpl in Hs1, Hf1, Hd1.
    rewrite Hs, Hf, Hd, Hs1, Hf1, Hd1, <- !app_assoc.
    destruct (push_ok (tag, exec_)), (push_failure (tag, exec_)),
      (local_deleted (tag, exec_)); done.
Qed.

(** X13. What the script reports at the end, for jobs finished in any
    order: [successTags] holds the tags whose remote deletion succeeded,
    [deletedLocalTags] those whose remote deletion failed with a missing
    tag and whose local tag could be deleted, [failedTags] the others that
    failed, each with its error, in the order of finishing. No tag is in
    two of the lists, every reported tag is one of the jobs' tags, and no
    error in [failedTags] is a missing-tag error. *)
Theorem deletion_report (finished : list (string * (string -> ExecResult))) :
  let T := runDeleteTasks finished in
  successTags T = map fst (List.filter push_ok finished) /\
  failedTags T = omap push_failure finished /\
  deletedLocalTags T = map fst (List.filter local_deleted finished) /\
  Forall (fun f => isTagNotFoundError (snd f) = false /\
                   fst f ∈ map fst finished) (failedTags T) /\
  (forall job,
     (if push_ok job then 1 else 0) + (if local_deleted job then 1 else 0)
     + (match push_failure job with Some _ => 1 | None => 0 end) <= 1).
Proof.
  intros T.
  destruct (runDeleteTasks_records finished
              {| successTags := []; failedTags := []; deletedLocalTags := [] |})
    as (Hs & Hf & Hd).
  fold (runDeleteTasks finished) in Hs, Hf, Hd. fold T in Hs, Hf, Hd. simpl in Hs, Hf, Hd.
  split; [done|]. split; [done|]. split; [done|]. split.
  - rewrite Hf. apply Forall_forall. intros f Hin.
    apply list_elem_of_omap in Hin as (job & Hjob & Hpf).
    unfold push_failure in Hpf.
    destruct (snd job _) as [|error]; [discriminate|].
    destruct (isTagNotFoundError error) eqn:Hnf; [discriminate|].
    simplify_eq. simpl. split; [done|]. by apply list_elem_of_fmap_2.
  - intros job. unfold push_ok, local_deleted, push_failure, remote_not_found.
    destruct (snd job _) as [|error]; simpl; [lia|].
    destruct (isTagNotFoundError error); simpl; [|lia].
    destruct (snd job _); simpl; lia.
Qed.
